(** * moray: the object write path (lib/objects/put.js)

    A shallow embedding of [lib/objects/put.js]: the index projector
    [_indexObject], the version token [_createEtag], the pre-chain runner
    [runPreChain], the statement builders [insert] and [update], and the
    pipeline assembled by [put].

    Conventions of the embedding.
    - JavaScript values are the inductive [JsVal]; numbers are restricted to
      integers ([Z]), which is all the statement builders ever print or parse.
    - A JavaScript object used as an ordered map (the index schema, the
      projection [ndx], a document) is an association list in insertion
      order; [obj_set] is the assignment [o[k] = v].  Field names are assumed
      not to be array-index-like strings, whose enumeration order differs.
    - Callback-passing steps [f(req, cb)] become state-passing functions
      [Req -> St -> Res Req * St]; [cb(err)] is [Err err], [cb()] is [Ok].
    - What lives outside put.js (the database handle, the clock, the crc and
      JSON libraries, the steps exported by lib/objects/common.js) is a
      member of the class [Externals]; [vasync.pipeline] is modelled by
      [vasync_pipeline].  Logging is left out.

    The functions [version] and [configure] of [lib/app.js] are embedded
    after the write path, with their own state [App] and class
    [AppExternals]. *)

From Stdlib Require Import ZArith List String Ascii Bool Lia.
From Stdlib Require Import Numbers.DecimalString Numbers.DecimalZ Numbers.DecimalNat.
Import ListNotations.
Open Scope list_scope.
Open Scope string_scope.

(** ** JavaScript values *)

#[local] Set Warnings "-register-all".

Inductive JsVal : Type :=
| JUndefined
| JNull
| JBool (b : bool)
| JNum (n : Z)
| JStr (s : string)
| JArr (l : list JsVal)
| JObj (l : list (string * JsVal)).

(** [typeof v] *)
Definition typeof (v : JsVal) : string :=
  match v with
  | JUndefined => "undefined"
  | JNull => "object"
  | JBool _ => "boolean"
  | JNum _ => "number"
  | JStr _ => "string"
  | JArr _ => "object"
  | JObj _ => "object"
  end.

(** [v === undefined] *)
Definition is_undefined (v : JsVal) : bool :=
  match v with JUndefined => true | _ => false end.

(** Truthiness, as an [if (v)] tests it. *)
Definition truthy (v : JsVal) : bool :=
  match v with
  | JUndefined | JNull => false
  | JBool b => b
  | JNum n => negb (Z.eqb n 0)
  | JStr s => negb (String.eqb s "")
  | JArr _ | JObj _ => true
  end.

(** Decimal printing of integers, as [String(n)] does for an integral
    number below [10^21] in magnitude; from [10^21] on JavaScript prints an
    exponent, which this function does not. *)
Definition Z_toString (z : Z) : string := NilZero.string_of_int (Z.to_int z).
Definition nat_toString (n : nat) : string := NilZero.string_of_uint (Nat.to_uint n).

(** [v + ''] on the three scalar types the projector stores. *)
Definition scalar_toString (v : JsVal) : option string :=
  match v with
  | JBool true => Some "true"
  | JBool false => Some "false"
  | JNum n => Some (Z_toString n)
  | JStr s => Some s
  | _ => None
  end.

(** ** Objects as ordered maps *)

Section Obj.
Context {V : Type}.

(** [o[k]]; [None] is [undefined]. *)
Fixpoint obj_get (o : list (string * V)) (k : string) : option V :=
  match o with
  | [] => None
  | (k', v) :: o' => if String.eqb k' k then Some v else obj_get o' k
  end.

(** [o[k] = v]: an existing property keeps its place, a new one goes last. *)
Fixpoint obj_set (o : list (string * V)) (k : string) (v : V) : list (string * V) :=
  match o with
  | [] => [(k, v)]
  | (k', v') :: o' =>
      if String.eqb k' k then (k', v) :: o' else (k', v') :: obj_set o' k v
  end.

(** [Object.keys(o)] *)
Definition obj_keys (o : list (string * V)) : list string := map fst o.

(** [delete o[k]] (used only to state properties). *)
Fixpoint obj_remove (o : list (string * V)) (k : string) : list (string * V) :=
  match o with
  | [] => []
  | (k', v') :: o' =>
      if String.eqb k' k then obj_remove o' k else (k', v') :: obj_remove o' k
  end.
End Obj.

(** ** Errors and results *)

Inductive Error : Type :=
| InvalidIndexTypeError (k t : string)
| AssertionError (name : string)
| TypeError (msg : string)
| ExternalError (msg : string).

Inductive Res (A : Type) : Type :=
| Ok (a : A)
| Err (e : Error).
Arguments Ok {A} a.
Arguments Err {A} e.

Definition is_ok {A} (r : Res A) : bool :=
  match r with Ok _ => true | Err _ => false end.

(** ** The index projector *)

(** One entry of an index schema: [schema[k]] is an object with a [type]. *)
Record IndexDef : Type := { type : string }.

Definition Schema : Type := list (string * IndexDef).
Definition Projection : Type := list (string * string).

(** Property read [object[k]] on a document.  Reading a property of [null]
    or [undefined] throws; an array answers its elements and its length;
    the other primitives are never read here ([assert.object] comes first)
    and answer [undefined]. *)
Definition get_prop (object : JsVal) (k : string) : Res JsVal :=
  match object with
  | JObj fields =>
      Ok (match obj_get fields k with Some v => v | None => JUndefined end)
  | JArr l =>
      if String.eqb k "length" then Ok (JNum (Z.of_nat (List.length l)))
      else Ok (match find (fun i => String.eqb (nat_toString i) k)
                          (seq 0 (List.length l)) with
               | Some i => nth i l JUndefined
               | None => JUndefined
               end)
  | JNull | JUndefined => Err (TypeError "Cannot read property of null or undefined")
  | _ => Ok JUndefined
  end.

(** The inner function [_index(k, v, t)] of [_indexObject], threading the
    projection [ndx] it closes over.  It answers the value it returns
    ([undefined], [false] or [true]) and the updated [ndx], or the error
    it throws. *)
Fixpoint _index (k : string) (v : JsVal) (t : string) (ndx : Projection)
  {struct v} : Res (JsVal * Projection) :=
  let store (ndx : Projection) : Res (JsVal * Projection) :=
    (* switch (typeof (v)) { ... ndx[k] = v + ''; ... } return (true); *)
    match scalar_toString v with
    | Some s => Ok (JBool true, obj_set ndx k s)
    | None => Ok (JBool true, ndx)
    end in
  if negb (is_undefined v) && negb (String.eqb (typeof v) t) then
    if String.eqb (typeof v) "object" then
      match v with
      | JArr l =>
          (* Array.isArray(v):
             v.forEach(function (v2) { _index(k, v2, t); }); return (undefined); *)
          (fix forEach (l : list JsVal) (ndx : Projection)
             : Res (JsVal * Projection) :=
             match l with
             | [] => Ok (JUndefined, ndx)
             | v2 :: l' =>
                 match _index k v2 t ndx with
                 | Ok (_, ndx') => forEach l' ndx'
                 | Err e => Err e
                 end
             end) l ndx
      | JNull => (* v === null *) Ok (JBool false, ndx)
      | _ => Err (InvalidIndexTypeError k t)
      end
    else store ndx
  else store ndx.

(** The loop [v.forEach(function (v2) { _index(k, v2, t); })] on its own. *)
Fixpoint index_each (k t : string) (l : list JsVal) (ndx : Projection)
  : Res (JsVal * Projection) :=
  match l with
  | [] => Ok (JUndefined, ndx)
  | v2 :: l' =>
      match _index k v2 t ndx with
      | Ok (_, ndx') => index_each k t l' ndx'
      | Err e => Err e
      end
  end.

(** [Object.keys(schema).forEach(function (k) { _index(k, object[k], schema[k].type) })] *)
Fixpoint index_fields (schema : Schema) (keys : list string) (object : JsVal)
  (ndx : Projection) : Res Projection :=
  match keys with
  | [] => Ok ndx
  | k :: keys' =>
      match get_prop object k with
      | Err e => Err e
      | Ok v =>
          match obj_get schema k with
          | None => Err (TypeError "Cannot read property 'type' of undefined")
          | Some d =>
              match _index k v (type d) ndx with
              | Err e => Err e
              | Ok (_, ndx') => index_fields schema keys' object ndx'
              end
          end
      end
  end.

(** [assert.object(arg, name)] of assert-plus: a [typeof] test. *)
Definition assert_object (arg : JsVal) (name : string) : Res unit :=
  if String.eqb (typeof arg) "object" then Ok tt else Err (AssertionError name).

(** [_indexObject(schema, object)].  The schema is already an object here
    (see [indexObject] for the request whose bucket has none). *)
Definition _indexObject (schema : Schema) (object : JsVal) : Res Projection :=
  match assert_object object "object" with
  | Err e => Err e
  | Ok _ =>
      if Nat.eqb (List.length (obj_keys schema)) 0 then Ok []
      else index_fields schema (obj_keys schema) object []
  end.

(** The schema with the single field [k] of type [t]. *)
Definition schema1 (k t : string) : Schema := [(k, {| type := t |})].

(** The types an index schema may declare. *)
Definition declared_types : list string := ["boolean"; "string"; "number"].



(** ** String builtins used by the statement builders *)

(** [String.prototype.toUpperCase], on the ASCII range. *)
Definition upper_ascii (c : ascii) : ascii :=
  let n := nat_of_ascii c in
  if (97 <=? n)%nat && (n <=? 122)%nat then ascii_of_nat (n - 32) else c.

Fixpoint toUpperCase (s : string) : string :=
  match s with
  | EmptyString => EmptyString
  | String c r => String (upper_ascii c) (toUpperCase r)
  end.

Definition is_digit (c : ascii) : bool :=
  let n := nat_of_ascii c in (48 <=? n)%nat && (n <=? 57)%nat.

Definition is_space (c : ascii) : bool :=
  let n := nat_of_ascii c in
  ((9 <=? n)%nat && (n <=? 13)%nat) || (n =? 32)%nat.

Fixpoint skip_spaces (s : string) : string :=
  match s with
  | String c r => if is_space c then skip_spaces r else s
  | EmptyString => EmptyString
  end.

Fixpoint take_digits (s : string) : string :=
  match s with
  | String c r => if is_digit c then String c (take_digits r) else EmptyString
  | EmptyString => EmptyString
  end.

(** [parseInt(s, 10)]: leading white space is skipped, one sign is read,
    then the longest run of decimal digits; [None] is [NaN].  The result is
    the exact integer; JavaScript rounds it to a double, which is the same
    number up to [2^53].  White space is the ASCII one. *)
Definition parseInt (s : string) : option Z :=
  let s1 := skip_spaces s in
  let '(sign, s2) :=
    match s1 with
    | String "-"%char r => ((-1)%Z, r)
    | String "+"%char r => (1%Z, r)
    | _ => (1%Z, s1)
    end in
  match take_digits s2 with
  | EmptyString => None
  | ds =>
      match NilEmpty.uint_of_string ds with
      | Some u => Some (sign * Z.of_uint u)%Z
      | None => None
      end
  end.

(** [Math.round(x / 1000)] for an integral [x]. *)
Definition round_div1000 (x : Z) : Z := ((x + 500) / 1000)%Z.

(** A value bound to a statement placeholder. *)
Inductive Param : Type :=
| PStr (s : string)
| PNum (n : Z)
| PNaN
| PUndefined.

(** ** vasync.pipeline *)

(** The status vasync reports for each operation of a pipeline. *)
Inductive Status : Type := st_ok | st_fail | st_waiting.

(** [vasync.pipeline({funcs, arg}, callback)]: the functions are called one
    after the other on the shared [arg]; the first error ends the pipeline
    and the functions after it stay [waiting]. *)
Fixpoint vasync_pipeline {A S : Type} (funcs : list (A -> S -> Res A * S))
  (arg : A) (s : S) : list Status * Res A * S :=
  match funcs with
  | [] => ([], Ok arg, s)
  | f :: funcs' =>
      match f arg s with
      | (Err e, s') => (st_fail :: map (fun _ => st_waiting) funcs', Err e, s')
      | (Ok arg', s') =>
          let '(sts, r, s'') := vasync_pipeline funcs' arg' s' in
          (st_ok :: sts, r, s'')
      end
  end.

(** ** The write path *)

Inductive QueryOrigin : Type := ByInsert | ByUpdate.

(** One call of [pg.query(sql, values, ...)] made by this module. *)
Record Query : Type := { q_origin : QueryOrigin; q_sql : string; q_values : list Param }.

(** The options object [opts] of [_put(b, k, v, opts, res)]. *)
Record Opts : Type :=
  { opts_etag : option string; opts__value : string; opts_headers : option JsVal }.

Section Types.

(** The world outside the module: the database behind the handle [pg],
    the clock, whatever the hooks and the common steps touch. *)
Variable World : Type.

(** The object handed to the hooks of a chain ([log] and [pg] are part of
    the world). *)
Record Cookie : Type :=
  { cookie_bucket : string;
    cookie_key : string;
    cookie_schema : option Schema;
    cookie_value : JsVal;
    cookie_headers : JsVal }.

(** A hook [f(cookie, cb)]; it may change the cookie in place. *)
Definition Hook : Type := Cookie -> World -> Res Cookie * World.

(** [req.bucket]; [put] starts with the name alone, the other members are
    [undefined] ([None]) until a step fills them. *)
Record Bucket : Type :=
  { name : string;
    bucket_index : option Schema;
    pre : option (list Hook);
    post : option (list Hook) }.

(** The pipeline argument [req]. *)
Record Req : Type :=
  { bucket : Bucket;
    etag : option string;
    key : string;
    value : JsVal;
    _value : string;
    headers : JsVal;
    previous : JsVal;
    index : option Projection }.

(** The state threaded through the steps: the world and the statements
    this module has sent so far, oldest first. *)
Record St : Type := { world : World; queries : list Query }.

Definition Step : Type := Req -> St -> Res Req * St.

(** A step defined outside put.js: it sees the request and the world. *)
Definition ExtStep : Type := Req -> World -> Res Req * World.

End Types.

Arguments name {World} _.
Arguments bucket_index {World} _.
Arguments pre {World} _.
Arguments post {World} _.
Arguments bucket {World} _.
Arguments etag {World} _.
Arguments key {World} _.
Arguments value {World} _.
Arguments _value {World} _.
Arguments headers {World} _.
Arguments previous {World} _.
Arguments index {World} _.
Arguments world {World} _.
Arguments queries {World} _.

(** [req.index = ndx] and [req.previous = row], as record updates. *)
Definition set_index {World} (req : Req World) (ndx : option Projection) : Req World :=
  {| bucket := bucket req; etag := etag req; key := key req; value := value req;
     _value := _value req; headers := headers req; previous := previous req;
     index := ndx |}.

Definition set_previous {World} (req : Req World) (row : JsVal) : Req World :=
  {| bucket := bucket req; etag := etag req; key := key req; value := value req;
     _value := _value req; headers := headers req; previous := row;
     index := index req |}.

Definition set_bucket {World} (req : Req World) (b : Bucket World) : Req World :=
  {| bucket := b; etag := etag req; key := key req; value := value req;
     _value := _value req; headers := headers req; previous := previous req;
     index := index req |}.

(** What put.js requires from outside: libraries, the database client and
    the steps of lib/objects/common.js. *)
Class Externals (World : Type) : Type :=
  { (** The crc package. *)
    crc32 : string -> Z;
    hex32 : Z -> string;
    (** [JSON.stringify]. *)
    JSON_stringify : JsVal -> string;
    (** [microtime.now()], in microseconds. *)
    microtime_now : World -> Z;
    (** [pg.query(sql, values, cb)]: the error or the rows of the result. *)
    pg_query : string -> list Param -> World -> Res (list JsVal) * World;
    (** [manatee.start(cb)]: the error or a database handle in a transaction. *)
    manatee_start : World -> Res unit * World;
    (** The steps of lib/objects/common.js. *)
    loadBucket : ExtStep World;
    selectForUpdate : ExtStep World;
    checkEtag : ExtStep World;
    runPostChain : ExtStep World }.

Section Put.

Context {World : Type} {ext : Externals World}.

Local Abbreviation Req := (Req World).
Local Abbreviation St := (St World).
Local Abbreviation Step := (Step World).

(** *** Internal functions *)

Definition _createEtag (req : Req) : string := hex32 (crc32 (_value req)).

Definition _now (w : World) : Z := round_div1000 (microtime_now w).

(** [pg.query] from a step, recorded in [queries]. *)
Definition query (o : QueryOrigin) (sql : string) (values : list Param) (st : St)
  : Res (list JsVal) * St :=
  let '(r, w') := pg_query sql values (world st) in
  (r, {| world := w';
         queries := (queries st ++ [{| q_origin := o; q_sql := sql; q_values := values |}])%list |}).

(** A step of lib/objects/common.js, run on the state of this module. *)
Definition common (f : ExtStep World) : Step := fun req st =>
  let '(r, w') := f req (world st) in
  (r, {| world := w'; queries := queries st |}).

(** *** Handlers *)

(** The [cookie] built by [runPreChain]. *)
Definition cookie_of (req : Req) : Cookie :=
  {| cookie_bucket := name (bucket req);
     cookie_key := key req;
     cookie_schema := bucket_index (bucket req);
     cookie_value := value req;
     cookie_headers := if truthy (headers req) then headers req else JObj [] |}.

(** The request once the pre-chain is done: the key and the value come back
    from the cookie and the value is serialized again. *)
Definition after_pre_chain (req : Req) (cookie : Cookie) : Req :=
  {| bucket := bucket req;
     etag := etag req;
     key := cookie_key cookie;
     value := cookie_value cookie;
     _value := JSON_stringify (cookie_value cookie);
     headers := headers req;
     previous := previous req;
     index := index req |}.

Definition runPreChain : Step := fun req st =>
  match pre (bucket req) with
  | None => (Err (TypeError "Cannot read property 'length' of undefined"), st)
  | Some hooks =>
      if Nat.eqb (List.length hooks) 0 then (Ok req, st)
      else
        match vasync_pipeline hooks (cookie_of req) (world st) with
        | (_, Err err, w') => (Err err, {| world := w'; queries := queries st |})
        | (_, Ok cookie, w') =>
            (Ok (after_pre_chain req cookie), {| world := w'; queries := queries st |})
        end
  end.

Definition indexObject : Step := fun req st =>
  match bucket_index (bucket req) with
  | None => (Err (AssertionError "schema"), st)
  | Some schema =>
      match _indexObject schema (value req) with
      | Err e => (Err e, st)
      | Ok ndx =>
          (Ok {| bucket := bucket req;
                 etag := etag req;
                 key := key req;
                 value := value req;
                 _value := _value req;
                 headers := headers req;
                 previous := previous req;
                 index := Some ndx |}, st)
      end
  end.

(** [req.index[k]] as a JavaScript value, read from the entries the
    projector stored.  The projection is a plain object, so in JavaScript a
    name of [Object.prototype] with no entry of its own reads as the
    inherited member; [prototype_member] below lists these names, and the
    statements that depend on an absent entry exclude them. *)
Definition index_get (ndx : Projection) (k : string) : JsVal :=
  match obj_get ndx k with Some s => JStr s | None => JUndefined end.

Definition param_of (v : JsVal) : Param :=
  match v with
  | JStr s => PStr s
  | JNum n => PNum n
  | _ => PUndefined
  end.

(** The [forEach] of [insert] over [Object.keys(req.index)], on the
    triple [(keyStr, valStr, values)]. *)
Fixpoint insert_fields (ndx : Projection) (keys : list string)
  (acc : string * string * list Param) : string * string * list Param :=
  match keys with
  | [] => acc
  | k :: keys' =>
      let '(keyStr, valStr, values) := acc in
      let values := (values ++ [param_of (index_get ndx k)])%list in
      let keyStr := keyStr ++ ", " ++ k in
      let valStr := valStr ++ ", $" ++ nat_toString (List.length values) in
      insert_fields ndx keys' (keyStr, valStr, values)
  end.

(** The statement and the values [insert] hands to [pg.query]. *)
Definition insert_statement (req : Req) (ndx : Projection) (w : World)
  : string * list Param :=
  let values := [PStr (key req); PStr (_value req); PStr (_createEtag req);
                 PNum (_now w)] in
  let '(keyStr, valStr, values) :=
    insert_fields ndx (obj_keys ndx) ("", "", values) in
  ("INSERT INTO " ++ name (bucket req) ++ " (_key, _value, _etag, _mtime" ++ keyStr
     ++ ") VALUES ($1, $2, $3, $4" ++ valStr ++ ") RETURNING _id",
   values).

(** [req.value._id = id]. An array keeps no named property in this model;
    a primitive ignores the assignment. *)
Definition set__id (v : JsVal) (id : JsVal) : Res JsVal :=
  match v with
  | JObj fields => Ok (JObj (obj_set fields "_id" id))
  | JNull | JUndefined => Err (TypeError "Cannot set property '_id'")
  | _ => Ok v
  end.

Definition insert : Step := fun req st =>
  if truthy (previous req) then (Ok req, st)
  else
    match index req with
    | None => (Err (TypeError "Object.keys called on non-object"), st)
    | Some ndx =>
        let '(sql, values) := insert_statement req ndx (world st) in
        match query ByInsert sql values st with
        | (Err err, st') => (Err err, st')
        | (Ok rows, st') =>
            match get_prop (nth 0 rows JUndefined) "_id" with
            | Err e => (Err e, st')
            | Ok id =>
                match set__id (value req) id with
                | Err e => (Err e, st')
                | Ok value' =>
                    (Ok {| bucket := bucket req;
                           etag := etag req;
                           key := key req;
                           value := value';
                           _value := _value req;
                           headers := headers req;
                           previous := previous req;
                           index := index req |}, st')
                end
            end
        end
    end.

(** The value [update] binds for a truthy [req.index[k]] of a field whose
    declared type is [t]; [None] when the [switch] pushes nothing. *)
Definition update_param (t : string) (s : string) : option Param :=
  if String.eqb t "boolean" then Some (PStr (toUpperCase s))
  else if String.eqb t "number" then
    Some (match parseInt s with Some n => PNum n | None => PNaN end)
  else if String.eqb t "string" then Some (PStr s)
  else None.

(** The [forEach] of [update] over [Object.keys(req.bucket.index)], on the
    pair [(extraStr, vals)]. *)
Fixpoint update_fields (schema : Schema) (ndx : option Projection)
  (keys : list string) (acc : string * list Param) : Res (string * list Param) :=
  match keys with
  | [] => Ok acc
  | k :: keys' =>
      let '(extraStr, vals) := acc in
      let extraStr := extraStr ++ ", " ++ k ++ "=" in
      match ndx with
      | None => Err (TypeError "Cannot read property of undefined")
      | Some ndx' =>
          if truthy (index_get ndx' k) then
            let extraStr := extraStr ++ "$" ++ nat_toString (List.length vals + 1) in
            match obj_get schema k with
            | None => Err (TypeError "Cannot read property 'type' of undefined")
            | Some d =>
                let s := match obj_get ndx' k with Some s => s | None => "" end in
                let vals := match update_param (type d) s with
                            | Some p => (vals ++ [p])%list
                            | None => vals
                            end in
                update_fields schema ndx keys' (extraStr, vals)
            end
          else
            update_fields schema ndx keys' (extraStr ++ "NULL", vals)
      end
  end.

(** The statement and the values [update] hands to [pg.query]. *)
Definition update_statement (req : Req) (schema : Schema) (w : World)
  : Res (string * list Param) :=
  let vals := [PStr (_value req); PStr (_createEtag req)] in
  match update_fields schema (index req) (obj_keys schema) ("", vals) with
  | Err e => Err e
  | Ok (extraStr, vals) =>
      Ok ("UPDATE " ++ name (bucket req) ++ " SET _value=$1, _etag=$2" ++ extraStr
            ++ ", _mtime=" ++ Z_toString (_now w)
            ++ " WHERE _key='" ++ key req ++ "'",
          vals)
  end.

Definition update : Step := fun req st =>
  if negb (truthy (previous req)) then (Ok req, st)
  else
    match bucket_index (bucket req) with
    | None => (Err (TypeError "Object.keys called on non-object"), st)
    | Some schema =>
        match update_statement req schema (world st) with
        | Err e => (Err e, st)
        | Ok (sql, vals) =>
            match query ByUpdate sql vals st with
            | (Err err, st') => (Err err, st')
            | (Ok _, st') => (Ok req, st')
            end
        end
    end.

(** *** put *)

(** The [funcs] of the pipeline in [_put]. *)
Definition put_funcs : list Step :=
  [common loadBucket; common selectForUpdate; runPreChain; common checkEtag;
   indexObject; insert; update; common runPostChain].

(** The [arg] of the pipeline in [_put]. *)
Definition put_arg (b k : string) (v : JsVal) (opts : Opts) : Req :=
  {| bucket := {| name := b; bucket_index := None; pre := None; post := None |};
     etag := opts_etag opts;
     key := k;
     value := v;
     _value := opts__value opts;
     headers := match opts_headers opts with Some h => h | None => JObj [] end;
     previous := JUndefined;
     index := None |}.

(** [_put(b, k, v, opts, res)]: [None] when no database handle was
    obtained ([res.end(startErr)]), otherwise the outcome of the pipeline. *)
Definition _put (b k : string) (v : JsVal) (opts : Opts) (w : World)
  : option (list Status * Res Req) * St :=
  match manatee_start w with
  | (Err startErr, w') => (None, {| world := w'; queries := [] |})
  | (Ok _, w') =>
      let '(sts, r, st) :=
        vasync_pipeline put_funcs (put_arg b k v opts) {| world := w'; queries := [] |} in
      (Some (sts, r), st)
  end.

End Put.

(** ** Vocabulary for the statements

    [join segs] is the concatenation of the pieces of a statement, and
    [assignment_of ndx k seg] says that [seg] is the piece [, k=...] that
    [update] writes for the field [k]: [NULL] when [req.index[k]] is falsy,
    a placeholder otherwise. *)

Definition join (segs : list string) : string := fold_right String.append "" segs.

Definition assignment_of (ndx : Projection) (k seg : string) : Prop :=
  exists rhs,
    seg = ", " ++ k ++ "=" ++ rhs /\
    (truthy (index_get ndx k) = false -> rhs = "NULL") /\
    (truthy (index_get ndx k) = true -> exists n, rhs = "$" ++ nat_toString n).

(** ** A concrete instance of the externals

    Used to run the write path on examples: the reflected CRC-32 with
    polynomial EDB88320 printed as eight upper-case hexadecimal digits, a
    compact JSON printer, a table of buckets, and a world made of a clock
    and the etags of the stored keys. *)

Module Demo.

Definition crc_bit (c : Z) : Z :=
  if Z.testbit c 0 then Z.lxor (Z.shiftr c 1) 3988292384 else Z.shiftr c 1.

Definition crc_byte (c : Z) (b : ascii) : Z :=
  Nat.iter 8 crc_bit (Z.lxor c (Z.of_nat (nat_of_ascii b))).

Fixpoint crc_bytes (s : string) (c : Z) : Z :=
  match s with
  | EmptyString => c
  | String b r => crc_bytes r (crc_byte c b)
  end.

Definition crc32 (s : string) : Z := Z.lxor (crc_bytes s 4294967295) 4294967295.

Definition hex_digit (n : Z) : ascii :=
  nth (Z.to_nat n) (list_ascii_of_string "0123456789ABCDEF") "0"%char.

Definition hex32 (z : Z) : string :=
  string_of_list_ascii
    (map (fun i => hex_digit (Z.land (Z.shiftr z (4 * i)) 15))
         [7; 6; 5; 4; 3; 2; 1; 0]%Z).

Definition dquote : string := String (ascii_of_nat 34) EmptyString.

Definition quote (s : string) : string := dquote ++ s ++ dquote.

Fixpoint stringify (v : JsVal) : string :=
  match v with
  | JUndefined | JNull => "null"
  | JBool true => "true"
  | JBool false => "false"
  | JNum n => Z_toString n
  | JStr s => quote s
  | JArr l =>
      "[" ++ (fix items (l : list JsVal) : string :=
                match l with
                | [] => ""
                | x :: r =>
                    stringify x ++ match r with [] => "" | _ => "," ++ items r end
                end) l ++ "]"
  | JObj l =>
      "{" ++ (fix members (l : list (string * JsVal)) : string :=
                match l with
                | [] => ""
                | (k, x) :: r =>
                    quote k ++ ":" ++ stringify x
                      ++ match r with [] => "" | _ => "," ++ members r end
                end) l ++ "}"
  end.

Record World : Type := { clock : Z; stored : list (string * string) }.

(** A hook that marks the document, and one that rejects the write. *)
Definition hook_stamp : Hook World := fun c w =>
  (Ok {| cookie_bucket := cookie_bucket c;
         cookie_key := cookie_key c;
         cookie_schema := cookie_schema c;
         cookie_value := match cookie_value c with
                         | JObj fields => JObj (obj_set fields "stamped" (JBool true))
                         | v => v
                         end;
         cookie_headers := cookie_headers c |}, w).

Definition hook_reject : Hook World := fun c w => (Err (ExternalError "rejected"), w).

Definition buckets : list (string * Bucket World) :=
  [("users", {| name := "users";
                bucket_index := Some [("email", {| type := "string" |});
                                      ("age", {| type := "number" |});
                                      ("admin", {| type := "boolean" |})];
                pre := Some []; post := Some [] |});
   ("notes", {| name := "notes";
                bucket_index := Some [("tag", {| type := "string" |})];
                pre := Some [hook_stamp]; post := Some [] |});
   ("locked", {| name := "locked";
                 bucket_index := Some [("tag", {| type := "string" |})];
                 pre := Some [hook_stamp; hook_reject; hook_stamp];
                 post := Some [] |})].

Definition loadBucket : ExtStep World := fun req w =>
  match obj_get buckets (name (bucket req)) with
  | Some b => (Ok (set_bucket req b), w)
  | None => (Err (ExternalError "BucketNotFoundError"), w)
  end.

Definition selectForUpdate : ExtStep World := fun req w =>
  match obj_get (stored w) (key req) with
  | Some e => (Ok (set_previous req (JObj [("_key", JStr (key req)); ("_etag", JStr e)])), w)
  | None => (Ok req, w)
  end.

Definition checkEtag : ExtStep World := fun req w =>
  match etag req, previous req with
  | Some t, JObj row =>
      match obj_get row "_etag" with
      | Some (JStr e) =>
          if String.eqb e t then (Ok req, w)
          else (Err (ExternalError "EtagConflictError"), w)
      | _ => (Ok req, w)
      end
  | _, _ => (Ok req, w)
  end.

Definition runPostChain : ExtStep World := fun req w => (Ok req, w).

Definition pg_query (sql : string) (values : list Param) (w : World)
  : Res (list JsVal) * World :=
  match values with
  | PStr "dup" :: _ => (Err (ExternalError "duplicate key"), w)
  | _ => (Ok [JObj [("_id", JNum 7)]], w)
  end.

#[export] Instance externals : Externals World :=
  Build_Externals World crc32 hex32 stringify clock pg_query
    (fun w => (Ok tt, w)) loadBucket selectForUpdate checkEtag runPostChain.

(** A world at 1.5 s on the clock where key [u1] is stored with etag [T1]. *)
Definition w0 : World := {| clock := 1500000; stored := [("u1", "T1")] |}.

Definition opts_for (v : JsVal) : Opts :=
  {| opts_etag := None; opts__value := stringify v; opts_headers := None |}.

(** A document of bucket [users], and its request as it reaches [insert]:
    for the new key [u2], and for the stored key [u1]. *)
Definition doc1 : JsVal :=
  JObj [("email", JStr "a@b.com"); ("age", JNum 30); ("admin", JBool true)].

Definition users_schema : Schema :=
  [("email", {| type := "string" |}); ("age", {| type := "number" |});
   ("admin", {| type := "boolean" |})].

Definition req_new : Req World :=
  {| bucket := {| name := "users"; bucket_index := Some users_schema;
                  pre := Some []; post := Some [] |};
     etag := None;
     key := "u2";
     value := doc1;
     _value := stringify doc1;
     headers := JObj [];
     previous := JUndefined;
     index := Some [("email", "a@b.com"); ("age", "30"); ("admin", "true")] |}.

Definition req_old : Req World :=
  {| bucket := bucket req_new;
     etag := None;
     key := "u1";
     value := JObj [("email", JStr ""); ("age", JNum 30)];
     _value := stringify (JObj [("email", JStr ""); ("age", JNum 30)]);
     headers := JObj [];
     previous := JObj [("_key", JStr "u1"); ("_etag", JStr "T1")];
     index := Some [("email", ""); ("age", "30")] |}.

(** A request on bucket [locked], whose second hook rejects the write. *)
Definition req_locked : Req World :=
  {| bucket := {| name := "locked";
                  bucket_index := Some [("tag", {| type := "string" |})];
                  pre := Some [hook_stamp; hook_reject; hook_stamp];
                  post := Some [] |};
     etag := None;
     key := "k1";
     value := JObj [("tag", JStr "x")];
     _value := stringify (JObj [("tag", JStr "x")]);
     headers := JObj [];
     previous := JUndefined;
     index := None |}.

Definition st0 : St World := {| world := w0; queries := [] |}.

End Demo.


(** ** Vocabulary for further properties of the projector and the builders

    [has_object v] says that [v] is an object or an array with such an
    element at any depth; [last_scalar v] is the string of the scalar [v],
    or of the last scalar met when the array [v] is walked depth first;
    [store_opt] stores such a result; [typed_param v] is the value a
    statement should carry for the scalar [v]. *)




Definition store_opt (ndx : Projection) (k : string) (o : option string) : Projection :=
  match o with Some s => obj_set ndx k s | None => ndx end.

Definition typed_param (v : JsVal) : Param :=
  match v with
  | JBool true => PStr "TRUE"
  | JBool false => PStr "FALSE"
  | JNum n => PNum n
  | JStr s => PStr s
  | _ => PUndefined
  end.

(** The document field [object[k]] of an object document. *)
Definition field (fields : list (string * JsVal)) (k : string) : JsVal :=
  match obj_get fields k with Some v => v | None => JUndefined end.

(** The declared type of [k], [schema[k].type]. *)
Definition type_of (schema : Schema) (k : string) : string :=
  match obj_get schema k with Some d => type d | None => "" end.

(** [aligned schema ndx final k seg]: [seg] is the assignment of field [k]
    in an update whose bound values are [final]; a placeholder [$n] sits
    where the [n]-th bound value is the encoded string of the field. *)
Definition aligned (schema : Schema) (ndx : Projection) (final : list Param)
  (k seg : string) : Prop :=
  if truthy (index_get ndx k) then
    exists n s,
      obj_get ndx k = Some s /\
      seg = ", " ++ k ++ "=" ++ "$" ++ nat_toString n /\
      1 <= n /\
      nth_error final (n - 1) = update_param (type_of schema k) s /\
      update_param (type_of schema k) s <> None
  else seg = ", " ++ k ++ "=" ++ "NULL".



(** The members of [Object.prototype] in the V8 of the time: the names a
    plain object answers without an entry of its own, each with a truthy
    value. *)
Definition object_prototype_names : list string :=
  ["constructor"; "toString"; "toLocaleString"; "valueOf"; "hasOwnProperty";
   "isPrototypeOf"; "propertyIsEnumerable"; "__proto__"; "__defineGetter__";
   "__defineSetter__"; "__lookupGetter__"; "__lookupSetter__"].

Definition prototype_member (k : string) : bool :=
  existsb (String.eqb k) object_prototype_names.

(** No field of the schema is named like a member of [Object.prototype]. *)
Definition own_names (schema : Schema) : bool :=
  forallb (fun k => negb (prototype_member k)) (obj_keys schema).

(** [Number.MAX_SAFE_INTEGER], [2^53 - 1]: up to it in magnitude every
    integer is a double, [String(n)] prints its digits and [parseInt] reads
    them back. *)
Definition max_safe_integer : Z := 9007199254740991.

Definition safe_integer (n : Z) : bool := (Z.abs n <=? max_safe_integer)%Z.

Definition safe_scalar (v : JsVal) : bool :=
  match v with JNum n => safe_integer n | _ => true end.

(** [v] is the empty string. *)
Definition empty_string (v : JsVal) : bool :=
  match v with JStr s => String.eqb s "" | _ => false end.

(** [bound_here schema ndx k]: [update] pushes a value for field [k], that
    is, [req.index[k]] is truthy and the declared type is one of the three
    the [switch] knows. *)
Definition bound_here (schema : Schema) (ndx : Projection) (k : string) : bool :=
  truthy (index_get ndx k) && existsb (String.eqb (type_of schema k)) declared_types.

(** ** lib/app.js: [version] and [configure]

    The module keeps one global, [VERSION]; it reads files with
    [fs.readFileSync], writes diagnostics with [console.error] and leaves
    with [process.exit].  The state [App] holds the global, the file system
    as the function [fs] from a path to the text of the file or the error
    of the read, and the lines given to [console.error].  [JSON.parse],
    [__dirname], [new Buffer(s, 'hex').toString('ascii')], the logger
    method [level] and the checks [assertString] and [assertObject], which
    app.js uses without defining them, are members of [AppExternals]. *)

(** [String(v)], as ['Moray ' + v] applies it. *)
Fixpoint js_String (v : JsVal) : string :=
  match v with
  | JUndefined => "undefined"
  | JNull => "null"
  | JBool true => "true"
  | JBool false => "false"
  | JNum n => Z_toString n
  | JStr s => s
  | JArr l =>
      (fix elements (l : list JsVal) : string :=
         match l with
         | [] => ""
         | x :: r =>
             match x with JUndefined | JNull => "" | _ => js_String x end
               ++ match r with [] => "" | _ => "," ++ elements r end
         end) l
  | JObj _ => "[object Object]"
  end.

(** [o[k] = v] outside strict mode: it throws on [null] and [undefined] and
    is ignored by the other primitives; an array keeps no named property in
    this model. *)
Definition set_prop (o : JsVal) (k : string) (v : JsVal) : Res JsVal :=
  match o with
  | JObj fields => Ok (JObj (obj_set fields k v))
  | JNull | JUndefined => Err (TypeError "Cannot set property of null or undefined")
  | _ => Ok o
  end.

(** An argument of [console.error]: a value, or the [message] of an error. *)
Inductive ConsoleArg : Type :=
| CVal (v : JsVal)
| CMessage (e : Error).

(** How a call ends: it returns, it throws, or the process exits. *)
Inductive Outcome (A : Type) : Type :=
| Returned (a : A)
| Thrown (e : Error)
| Exited (code : Z).
Arguments Returned {A} a.
Arguments Thrown {A} e.
Arguments Exited {A} code.

Record App : Type :=
  { VERSION : JsVal;
    fs : JsVal -> Res string;
    console : list (string * list ConsoleArg) }.

Class AppExternals : Type :=
  { JSON_parse : string -> Res JsVal;
    __dirname : string;
    Buffer_hex_to_ascii : JsVal -> Res string;
    log_level : JsVal -> JsVal -> Res unit;
    assertString : string -> JsVal -> Res unit;
    assertObject : string -> JsVal -> Res unit }.

Definition bind {A B : Type} (r : Res A) (f : A -> Res B) : Res B :=
  match r with Ok a => f a | Err e => Err e end.

Notation "x <- r ;; f" := (bind r (fun x => f))
  (at level 61, r at next level, right associativity).

Section AppJs.

Context {aext : AppExternals}.

(** [version()] *)
Definition version (app : App) : Res JsVal * App :=
  if negb (truthy (VERSION app)) then
    match (pkg <- fs app (JStr (__dirname ++ "/../package.json")) ;;
           parsed <- JSON_parse pkg ;;
           get_prop parsed "version") with
    | Err e => (Err e, app)
    | Ok v => (Ok v, {| VERSION := v; fs := fs app; console := console app |})
    end
  else (Ok (VERSION app), app).

(** [console.error(fmt, args...); process.exit(1)] *)
Definition exit1 (app : App) (fmt : string) (args : list ConsoleArg)
  : Outcome JsVal * App :=
  (Exited 1,
   {| VERSION := VERSION app; fs := fs app;
      console := (console app ++ [(fmt, args)])%list |}).

(** The body of the first [try] of [configure]: the file is read and
    parsed, and the port is settled. *)
Definition parse_config (file overrides : JsVal) (app : App) : Res JsVal :=
  text <- fs app file ;;
  config <- JSON_parse text ;;
  oport <- get_prop overrides "port" ;;
  if truthy oport then set_prop config "port" oport
  else
    cport <- get_prop config "port" ;;
    if negb (truthy cport) then
      certificate <- get_prop config "certificate" ;;
      secure <- (if truthy certificate
                 then (k <- get_prop config "key" ;; Ok (truthy k))
                 else Ok false) ;;
      set_prop config "port" (JNum (if secure : bool then 443 else 80))
    else Ok config.

(** The body of the second and third [try]:
    [if (config[k]) config[k] = fs.readFileSync(config[k], 'utf8')]. *)
Definition load_file (k : string) (config : JsVal) (app : App) : Res JsVal :=
  path <- get_prop config k ;;
  if truthy path then (text <- fs app path ;; set_prop config k (JStr text))
  else Ok config.

(** [l.level(x)] on the logger [l]. *)
Definition call_level (l x : JsVal) : Res unit :=
  _ <- get_prop l "level" ;; log_level l x.

(** [config.marker[k] = new Buffer(config.marker[k], 'hex').toString('ascii')];
    the marker object is changed in place. *)
Definition decode_marker (k : string) (config : JsVal) : Res JsVal :=
  marker <- get_prop config "marker" ;;
  hex <- get_prop marker k ;;
  text <- Buffer_hex_to_ascii hex ;;
  marker' <- set_prop marker k (JStr text) ;;
  set_prop config "marker" marker'.

(** The statements of [configure] after its checks, up to [return config]. *)
Definition finish_config (options config : JsVal) (app : App) : Res JsVal * App :=
  match (dtrace <- get_prop options "dtrace" ;;
         config <- set_prop config "dtrace" dtrace ;;
         log <- get_prop options "log" ;;
         config <- set_prop config "log" log ;;
         clog <- get_prop config "log" ;;
         level <- get_prop config "logLevel" ;;
         _ <- call_level clog level ;;
         config <- decode_marker "iv" config ;;
         decode_marker "key" config) with
  | Err e => (Err e, app)
  | Ok config =>
      match version app with
      | (Err e, app) => (Err e, app)
      | (Ok v1, app) =>
          match set_prop config "name" (JStr ("Moray " ++ js_String v1)) with
          | Err e => (Err e, app)
          | Ok config =>
              match version app with
              | (Err e, app) => (Err e, app)
              | (Ok v2, app) =>
                  (config <- set_prop config "version" v2 ;;
                   postgres <- get_prop config "postgres" ;;
                   log <- get_prop options "log" ;;
                   postgres' <- set_prop postgres "log" log ;;
                   config <- set_prop config "postgres" postgres' ;;
                   level <- get_prop config "logLevel" ;;
                   if truthy level
                   then (clog <- get_prop config "log" ;;
                         _ <- call_level clog level ;; Ok config)
                   else Ok config,
                   app)
              end
          end
      end
  end.

(** [configure(file, options)] *)
Definition configure (file options : JsVal) (app : App) : Outcome JsVal * App :=
  match (_ <- assertString "file" file ;;
         _ <- assertObject "options" options ;;
         get_prop options "overrides") with
  | Err e => (Thrown e, app)
  | Ok o =>
      let overrides := if truthy o then o else JObj [] in
      match parse_config file overrides app with
      | Err e => exit1 app "Unable to parse %s: %s" [CVal file; CMessage e]
      | Ok config =>
          match load_file "certificate" config app with
          | Err e =>
              match get_prop config "certificate" with
              | Err e' => (Thrown e', app)
              | Ok c => exit1 app "Unable to load %s: %s" [CVal c; CMessage e]
              end
          | Ok config =>
              match load_file "key" config app with
              | Err e =>
                  match get_prop config "certificate" with
                  | Err e' => (Thrown e', app)
                  | Ok c => exit1 app "Unable to load %s: %s" [CVal c; CMessage e]
                  end
              | Ok config =>
                  match get_prop config "postgres" with
                  | Err e => (Thrown e, app)
                  | Ok postgres =>
                      if negb (truthy postgres) then
                        exit1 app "Missing Postgres configuration from %s" [CVal file]
                      else
                        match get_prop config "marker" with
                        | Err e => (Thrown e, app)
                        | Ok marker =>
                            if negb (truthy marker) then
                              exit1 app "Missing AES configuration for markers in %s"
                                    [CVal file]
                            else
                              match finish_config options config app with
                              | (Err e, app) => (Thrown e, app)
                              | (Ok config, app) => (Returned config, app)
                              end
                        end
                  end
              end
          end
      end
  end.

End AppJs.

(** ** A concrete instance for lib/app.js

    [JSON.parse] reads back the texts [Demo.stringify] prints for the
    documents of a table; hexadecimal text is decoded two digits at a time
    and cut to seven bits; the file system holds a configuration file, a
    certificate, and the package file. *)

Module DemoApp.

Definition hex_value (c : ascii) : option nat :=
  let n := nat_of_ascii c in
  if (48 <=? n)%nat && (n <=? 57)%nat then Some (n - 48)
  else if (97 <=? n)%nat && (n <=? 102)%nat then Some (n - 87)
  else if (65 <=? n)%nat && (n <=? 70)%nat then Some (n - 55)
  else None.

Fixpoint hex_decode (s : string) : option string :=
  match s with
  | EmptyString => Some EmptyString
  | String a (String b r) =>
      match hex_value a, hex_value b, hex_decode r with
      | Some x, Some y, Some t => Some (String (ascii_of_nat ((16 * x + y) mod 128)) t)
      | _, _, _ => None
      end
  | String _ EmptyString => None
  end.

Definition hex_to_ascii (v : JsVal) : Res string :=
  match v with
  | JStr s =>
      match hex_decode s with
      | Some t => Ok t
      | None => Err (TypeError "Invalid hex string")
      end
  | _ => Err (TypeError "First argument needs to be a number, array or string.")
  end.

Definition package : JsVal := JObj [("name", JStr "moray"); ("version", JStr "0.1.0")].

Definition config_file : JsVal :=
  JObj [("certificate", JStr "/etc/cert.pem"); ("key", JStr "/etc/key.pem");
        ("postgres", JObj [("url", JStr "pg://localhost/moray")]);
        ("marker", JObj [("iv", JStr "6162"); ("key", JStr "7a7a")])].

Definition plain_file : JsVal :=
  JObj [("postgres", JObj []); ("marker", JObj [("iv", JStr "61"); ("key", JStr "62")])].

Definition broken_file : JsVal :=
  JObj [("certificate", JStr "/etc/cert.pem"); ("key", JStr "/etc/missing.pem");
        ("postgres", JObj []); ("marker", JObj [])].

Definition documents : list (string * JsVal) :=
  [(Demo.stringify package, package); (Demo.stringify config_file, config_file);
   (Demo.stringify plain_file, plain_file); (Demo.stringify broken_file, broken_file)].

Definition parse (s : string) : Res JsVal :=
  match obj_get documents s with
  | Some v => Ok v
  | None => Err (ExternalError "SyntaxError")
  end.

Definition files : list (string * string) :=
  [("/opt/moray/lib/../package.json", Demo.stringify package);
   ("/etc/moray.json", Demo.stringify config_file);
   ("/etc/plain.json", Demo.stringify plain_file);
   ("/etc/broken.json", Demo.stringify broken_file);
   ("/etc/cert.pem", "CERTIFICATE");
   ("/etc/key.pem", "PRIVATE KEY")].

Definition read (path : JsVal) : Res string :=
  match path with
  | JStr p =>
      match obj_get files p with
      | Some text => Ok text
      | None => Err (ExternalError "ENOENT")
      end
  | _ => Err (TypeError "path must be a string")
  end.

Definition assert_type (t : string) (name : string) (v : JsVal) : Res unit :=
  if String.eqb (typeof v) t then Ok tt else Err (AssertionError name).

#[export] Instance externals : AppExternals :=
  Build_AppExternals parse "/opt/moray/lib" hex_to_ascii (fun _ _ => Ok tt)
    (assert_type "string") (assert_type "object").

Definition app0 : App := {| VERSION := JBool false; fs := read; console := [] |}.

Definition options0 : JsVal :=
  JObj [("log", JObj [("level", JStr "function")]); ("dtrace", JNull)].

End DemoApp.

(** The port [configure] settles on, from [overrides.port] and the fields
    of the parsed file. *)
Definition settled_port (oport : JsVal) (fields : list (string * JsVal)) : JsVal :=
  if truthy oport then oport
  else if truthy (field fields "port") then field fields "port"
  else JNum (if truthy (field fields "certificate") && truthy (field fields "key")
             then 443 else 80).

(** The formats of the diagnostics of [configure]. *)
Definition configure_diagnostics : list string :=
  ["Unable to parse %s: %s"; "Unable to load %s: %s";
   "Missing Postgres configuration from %s";
   "Missing AES configuration for markers in %s"].

(** * Properties *)

#[local] Arguments String.eqb : simpl never.

(** ** Ordered maps *)

Section ObjFacts.
Context {V : Type}.
Implicit Types (o : list (string * V)) (k : string) (v : V).

Lemma obj_get_set_same o k v : obj_get (obj_set o k v) k = Some v.
Proof.
  induction o as [|[k' v'] o IH]; simpl.
  - now rewrite String.eqb_refl.
  - destruct (String.eqb k' k) eqn:E; simpl; rewrite E; auto.
Qed.

Lemma obj_get_set_other o k k0 v :
  k0 <> k -> obj_get (obj_set o k v) k0 = obj_get o k0.
Proof.
  intros Hne. induction o as [|[k' v'] o IH]; simpl.
  - destruct (String.eqb k k0) eqn:E; auto.
    apply String.eqb_eq in E. congruence.
  - destruct (String.eqb k' k) eqn:E; simpl.
    + apply String.eqb_eq in E. subst k'.
      destruct (String.eqb k k0) eqn:E0; auto.
      apply String.eqb_eq in E0. congruence.
    + now rewrite IH.
Qed.

Lemma obj_set_set o k v1 v2 : obj_set (obj_set o k v1) k v2 = obj_set o k v2.
Proof.
  induction o as [|[k' v'] o IH]; simpl.
  - now rewrite String.eqb_refl.
  - destruct (String.eqb k' k) eqn:E; simpl; rewrite E; congruence.
Qed.

Lemma obj_get_keys o k : In k (obj_keys o) -> exists v, obj_get o k = Some v.
Proof.
  induction o as [|[k' v'] o IH]; simpl; [tauto|].
  intros [->|H].
  - rewrite String.eqb_refl. eauto.
  - destruct (String.eqb k' k); eauto.
Qed.

Lemma obj_get_remove_same o k : obj_get (obj_remove o k) k = None.
Proof.
  induction o as [|[k' v'] o IH]; simpl; auto.
  destruct (String.eqb k' k) eqn:E; simpl; auto. now rewrite E.
Qed.

Lemma obj_get_remove_other o k k0 :
  k0 <> k -> obj_get (obj_remove o k) k0 = obj_get o k0.
Proof.
  intros Hne. induction o as [|[k' v'] o IH]; simpl; auto.
  destruct (String.eqb k' k) eqn:E; simpl.
  - apply String.eqb_eq in E. subst k'.
    destruct (String.eqb k k0) eqn:E0; auto.
    apply String.eqb_eq in E0. congruence.
  - now rewrite IH.
Qed.

End ObjFacts.

(** ** The index projector *)

(** Induction on values that reaches the elements of an array. *)
Lemma JsVal_array_ind (P : JsVal -> Prop) :
  P JUndefined -> P JNull -> (forall b, P (JBool b)) -> (forall n, P (JNum n)) ->
  (forall s, P (JStr s)) -> (forall l, Forall P l -> P (JArr l)) ->
  (forall l, P (JObj l)) -> forall v, P v.
Proof.
  intros HU HN HB HZ HS HA HO.
  fix IH 1. intros [| |b|n|s|l|l].
  - exact HU.
  - exact HN.
  - apply HB.
  - apply HZ.
  - apply HS.
  - apply HA. induction l as [|x l IHl]; constructor; [apply IH | exact IHl].
  - apply HO.
Qed.

Lemma _index_array k l t ndx :
  String.eqb "object" t = false ->
  _index k (JArr l) t ndx = index_each k t l ndx.
Proof.
  intros Ht. simpl. rewrite Ht. simpl.
  revert ndx. induction l as [|v2 l IH]; intros ndx; simpl; auto.
  destruct (_index k v2 t ndx) as [[r ndx']|e]; auto.
Qed.

Lemma _index_array_object k l ndx :
  _index k (JArr l) "object" ndx = Ok (JBool true, ndx).
Proof. reflexivity. Qed.

Lemma _index_scalar k v t ndx s :
  scalar_toString v = Some s ->
  _index k v t ndx = Ok (JBool true, obj_set ndx k s).
Proof.
  destruct v as [| |b|n|x|l|l]; simpl; try discriminate; intros Hs.
  - destruct (String.eqb "boolean" t); simpl; now rewrite Hs.
  - destruct (String.eqb "number" t); simpl; now inversion Hs.
  - destruct (String.eqb "string" t); simpl; now inversion Hs.
Qed.

Lemma _index_null k t ndx :
  exists r, _index k JNull t ndx = Ok (r, ndx).
Proof.
  simpl. destruct (String.eqb "object" t); simpl; eauto.
Qed.

Lemma _index_undefined k t ndx : _index k JUndefined t ndx = Ok (JBool true, ndx).
Proof. reflexivity. Qed.



(** [_index] touches no entry of the projection but the one of its field. *)
Lemma _index_frame k t k0 : k0 <> k ->
  forall v ndx r ndx', _index k v t ndx = Ok (r, ndx') ->
  obj_get ndx' k0 = obj_get ndx k0.
Proof.
  intros Hne v. induction v as [| |b|n|s|l IHl|l] using JsVal_array_ind;
    intros ndx r ndx' H.
  - rewrite _index_undefined in H. now inversion H.
  - destruct (_index_null k t ndx) as [r0 E]. rewrite E in H. now inversion H.
  - rewrite (_index_scalar k (JBool b) t ndx (if b then "true" else "false")) in H
      by (now destruct b).
    inversion H. now apply obj_get_set_other.
  - rewrite (_index_scalar k (JNum n) t ndx (Z_toString n)) in H by reflexivity.
    inversion H. now apply obj_get_set_other.
  - rewrite (_index_scalar k (JStr s) t ndx s) in H by reflexivity.
    inversion H. now apply obj_get_set_other.
  - destruct (String.eqb "object" t) eqn:Ht.
    + apply String.eqb_eq in Ht. subst t. rewrite _index_array_object in H.
      now inversion H.
    + rewrite _index_array in H by assumption.
      revert ndx H. induction IHl as [|v l Hv _ IH]; intros ndx H; simpl in H.
      * now inversion H.
      * destruct (_index k v t ndx) as [[r1 ndx1]|e] eqn:E; [|discriminate].
        rewrite (IH _ H). eapply Hv; eauto.
  - simpl in H. destruct (String.eqb "object" t); simpl in H; [|discriminate].
    now inversion H.
Qed.

(** The only error [_index] throws is the type error of its own field, and
    never on [null]. *)
Lemma _index_error k t v ndx e :
  _index k v t ndx = Err e -> e = InvalidIndexTypeError k t /\ v <> JNull.
Proof.
  revert ndx. induction v as [| |b|n|s|l IHl|l] using JsVal_array_ind; intros ndx H.
  - rewrite _index_undefined in H. discriminate.
  - destruct (_index_null k t ndx) as [r0 E]. rewrite E in H. discriminate.
  - rewrite (_index_scalar k (JBool b) t ndx (if b then "true" else "false")) in H
      by (now destruct b). discriminate.
  - rewrite (_index_scalar k (JNum n) t ndx (Z_toString n)) in H by reflexivity.
    discriminate.
  - rewrite (_index_scalar k (JStr s) t ndx s) in H by reflexivity. discriminate.
  - split; [|discriminate].
    destruct (String.eqb "object" t) eqn:Ht.
    + apply String.eqb_eq in Ht. subst t. rewrite _index_array_object in H.
      discriminate.
    + rewrite _index_array in H by assumption.
      revert ndx H. induction IHl as [|v l Hv _ IH]; intros ndx H; simpl in H.
      * discriminate.
      * destruct (_index k v t ndx) as [[r1 ndx1]|e1] eqn:E.
        -- eapply IH; eauto.
        -- inversion H; subst e1. now apply (Hv ndx).
  - split; [|discriminate]. simpl in H.
    destruct (String.eqb "object" t); simpl in H; now inversion H.
Qed.

Lemma get_prop_error object k e :
  get_prop object k = Err e -> forall k', get_prop object k' = Err e.
Proof.
  destruct object as [| |b|n|s|l|l]; simpl; intros H k'; try discriminate; auto.
  destruct (String.eqb k "length"); discriminate.
Qed.

Lemma get_prop_null_object object k :
  get_prop object k = Ok JNull -> typeof object = "object".
Proof.
  destruct object as [| |b|n|s|l|l]; simpl; intros H; try discriminate; auto.
Qed.

Lemma _indexObject_single k t v :
  _indexObject (schema1 k t) (JObj [(k, v)]) =
  match _index k v t [] with
  | Ok (_, ndx) => Ok ndx
  | Err e => Err e
  end.
Proof.
  unfold _indexObject, schema1. simpl. rewrite String.eqb_refl. simpl.
  destruct (_index k v t []) as [[r ndx]|e]; reflexivity.
Qed.

(** Processing the declared fields leaves alone the entry of a field whose
    document value is [null]. *)
Lemma index_fields_null_kept schema object k :
  get_prop object k = Ok JNull ->
  forall keys ndx ndx',
    index_fields schema keys object ndx = Ok ndx' ->
    obj_get ndx' k = obj_get ndx k.
Proof.
  intros Hk keys. induction keys as [|a keys IH]; intros ndx ndx' H; simpl in H.
  - now inversion H.
  - destruct (get_prop object a) as [v|e] eqn:Ea; [|discriminate].
    destruct (obj_get schema a) as [d|]; [|discriminate].
    destruct (_index a v (type d) ndx) as [[r ndx1]|e] eqn:Ei; [|discriminate].
    rewrite (IH _ _ H).
    destruct (String.eqb a k) eqn:E.
    + apply String.eqb_eq in E. subst a. rewrite Hk in Ea. inversion Ea; subst v.
      destruct (_index_null k (type d) ndx) as [r0 E0]. rewrite E0 in Ei.
      now inversion Ei.
    + eapply _index_frame; eauto. intros ->. now rewrite String.eqb_refl in E.
Qed.

Lemma index_fields_null_error schema object k :
  get_prop object k = Ok JNull ->
  forall keys ndx e,
    incl keys (obj_keys schema) ->
    index_fields schema keys object ndx = Err e ->
    exists k' t', e = InvalidIndexTypeError k' t' /\ k' <> k.
Proof.
  intros Hk keys. induction keys as [|a keys IH]; intros ndx e Hin H; simpl in H.
  - discriminate.
  - assert (Ha : In a (obj_keys schema)) by (apply Hin; now left).
    assert (Hin' : incl keys (obj_keys schema))
      by (intros x Hx; apply Hin; now right).
    destruct (get_prop object a) as [v|e0] eqn:Ea.
    + destruct (obj_get_keys schema a Ha) as [d Hd]. rewrite Hd in H.
      destruct (_index a v (type d) ndx) as [[r ndx1]|e1] eqn:Ei.
      * eapply IH; eauto.
      * inversion H; subst e1.
        destruct (_index_error _ _ _ _ _ Ei) as [-> Hv].
        exists a, (type d). split; auto.
        intros ->. rewrite Hk in Ea. inversion Ea. congruence.
    + rewrite (get_prop_error _ _ _ Ea k) in Hk. discriminate.
Qed.

Lemma index_fields_all_null schema object :
  forall keys ndx,
    incl keys (obj_keys schema) ->
    (forall k', In k' keys -> get_prop object k' = Ok JNull) ->
    index_fields schema keys object ndx = Ok ndx.
Proof.
  induction keys as [|a keys IH]; intros ndx Hin Hall; simpl; auto.
  rewrite (Hall a) by now left.
  destruct (obj_get_keys schema a (Hin a (or_introl eq_refl))) as [d Hd].
  rewrite Hd. destruct (_index_null a (type d) ndx) as [r E]. rewrite E.
  apply IH.
  - intros x Hx. apply Hin. now right.
  - intros x Hx. apply Hall. now right.
Qed.

(** C6.  A declared field whose document value is [null] is left out of the
    projection, and raises nothing: [_index] answers without touching the
    projection; a projection that is returned has no entry for the field; an
    error, if one comes out, is the type error of another field; and when
    every declared field is [null] the projection is returned, empty. *)
Theorem C6_null_field_omitted (schema : Schema) (object : JsVal) (k : string) :
  get_prop object k = Ok JNull ->
  (forall t ndx, exists r, _index k JNull t ndx = Ok (r, ndx)) /\
  (forall ndx, _indexObject schema object = Ok ndx -> obj_get ndx k = None) /\
  (forall e, _indexObject schema object = Err e ->
             exists k' t', e = InvalidIndexTypeError k' t' /\ k' <> k) /\
  ((forall k', In k' (obj_keys schema) -> get_prop object k' = Ok JNull) ->
   _indexObject schema object = Ok []).
Proof.
  intros Hk. pose proof (get_prop_null_object _ _ Hk) as Hty.
  split; [intros t ndx; apply _index_null|].
  unfold _indexObject, assert_object. rewrite Hty. simpl.
  split; [|split].
  - intros ndx. destruct (Nat.eqb _ 0).
    + intros H. now inversion H.
    + intros H. now rewrite (index_fields_null_kept _ _ _ Hk _ _ _ H).
  - intros e. destruct (Nat.eqb _ 0); [discriminate|].
    apply index_fields_null_error; auto. apply incl_refl.
  - intros Hall. destruct (Nat.eqb _ 0); auto.
    apply index_fields_all_null; auto. apply incl_refl.
Qed.

Lemma C6_null_field_omitted_witness :
  _indexObject [("email", {| type := "string" |}); ("age", {| type := "number" |})]
               (JObj [("email", JNull); ("age", JNum 3)]) = Ok [("age", "3")]
  /\ obj_get [("age", "3")] "email" = @None string.
Proof.
  split; [reflexivity|].
  apply (proj1 (proj2 (C6_null_field_omitted
           [("email", {| type := "string" |}); ("age", {| type := "number" |})]
           (JObj [("email", JNull); ("age", JNum 3)]) "email" eq_refl))).
  reflexivity.
Defined.

(** C2.  A scalar whose type differs from the declared one is not rejected:
    [_index] throws only inside the branch taken for objects, so the scalar
    falls through to the [switch] and is stored as a string.  On schema
    [{age: number}] and document [{age: "thirty"}] the projection is
    [{age: "thirty"}] and no [InvalidIndexTypeError] is raised. *)
Theorem C2_mismatched_scalar_is_stored (k : string) (v : JsVal) (t s : string)
  (ndx : Projection) :
  scalar_toString v = Some s ->
  String.eqb (typeof v) t = false ->
  _index k v t ndx = Ok (JBool true, obj_set ndx k s) /\
  _indexObject (schema1 k t) (JObj [(k, v)]) = Ok [(k, s)].
Proof.
  intros Hs _. split.
  - now apply _index_scalar.
  - rewrite _indexObject_single, (_index_scalar k v t [] s Hs). reflexivity.
Qed.

Lemma C2_mismatched_scalar_is_stored_witness :
  _index "age" (JStr "thirty") "number" [] = Ok (JBool true, [("age", "thirty")]) /\
  _indexObject (schema1 "age" "number") (JObj [("age", JStr "thirty")])
  = Ok [("age", "thirty")].
Proof.
  apply (C2_mismatched_scalar_is_stored "age" (JStr "thirty") "number" "thirty" []);
    reflexivity.
Defined.



Lemma declared_type_not_object t :
  existsb (String.eqb t) declared_types = true -> String.eqb "object" t = false.
Proof.
  unfold declared_types. simpl. intros H.
  destruct (String.eqb "object" t) eqn:E; auto.
  apply String.eqb_eq in E. subst t. discriminate.
Qed.



(** ** Strings and pipelines *)

Lemma string_app_assoc (a b c : string) : (a ++ b) ++ c = a ++ b ++ c.
Proof. induction a as [|x a IH]; simpl; congruence. Qed.

Lemma string_app_nil_r (a : string) : a ++ "" = a.
Proof. induction a as [|x a IH]; simpl; congruence. Qed.

(** [parseInt] reads back the decimal string of an integer. *)
Lemma take_digits_uint d :
  take_digits (NilEmpty.string_of_uint d) = NilEmpty.string_of_uint d.
Proof. induction d; simpl; congruence. Qed.

Lemma parseInt_digit_first c r :
  is_digit c = true ->
  parseInt (String c r) =
  match take_digits (String c r) with
  | EmptyString => None
  | ds => match NilEmpty.uint_of_string ds with
          | Some u => Some (1 * Z.of_uint u)%Z
          | None => None
          end
  end.
Proof.
  destruct c as [[] [] [] [] [] [] [] []]; intros H; try discriminate H; reflexivity.
Qed.

Lemma parseInt_minus r :
  parseInt (String "-"%char r) =
  match take_digits r with
  | EmptyString => None
  | ds => match NilEmpty.uint_of_string ds with
          | Some u => Some (-1 * Z.of_uint u)%Z
          | None => None
          end
  end.
Proof. reflexivity. Qed.

Lemma string_of_uint_digit_first d :
  d <> Decimal.Nil ->
  exists c r, NilEmpty.string_of_uint d = String c r /\ is_digit c = true.
Proof.
  destruct d; intros H; try congruence; simpl; eexists _, _; split; reflexivity.
Qed.

Lemma parseInt_uint d :
  d <> Decimal.Nil ->
  parseInt (NilZero.string_of_uint d) = Some (Z.of_uint d) /\
  parseInt (String "-"%char (NilZero.string_of_uint d)) = Some (- Z.of_uint d)%Z.
Proof.
  intros Hn.
  assert (E0 : NilZero.string_of_uint d = NilEmpty.string_of_uint d)
    by (destruct d; [congruence | reflexivity ..]).
  destruct (string_of_uint_digit_first d Hn) as [c [r [E Hc]]].
  rewrite E0. split.
  - rewrite E, parseInt_digit_first by assumption.
    rewrite <- E, take_digits_uint, E, <- E, NilEmpty.usu.
    f_equal; lia.
  - rewrite parseInt_minus, take_digits_uint, E, <- E, NilEmpty.usu.
    f_equal; lia.
Qed.

Lemma parseInt_Z_toString z : parseInt (Z_toString z) = Some z.
Proof.
  unfold Z_toString. destruct z as [|p|p]; [reflexivity| |];
    pose proof (DecimalPos.Unsigned.to_uint_nonnil p) as Hn;
    pose proof (DecimalPos.Unsigned.of_to p) as Hp;
    destruct (parseInt_uint _ Hn) as [H1 H2];
    unfold Z.of_uint in H1, H2; rewrite Hp in H1, H2.
  - exact H1.
  - exact H2.
Qed.

Lemma pipeline_app {A T : Type} (fs1 fs2 : list (A -> T -> Res A * T)) a s :
  vasync_pipeline (fs1 ++ fs2)%list a s =
  match vasync_pipeline fs1 a s with
  | (sts, Ok a', s') =>
      let '(sts2, r, s'') := vasync_pipeline fs2 a' s' in ((sts ++ sts2)%list, r, s'')
  | (sts, Err e, s') => ((sts ++ map (fun _ => st_waiting) fs2)%list, Err e, s')
  end.
Proof.
  revert a s. induction fs1 as [|f fs1 IH]; intros a s; simpl.
  - destruct (vasync_pipeline fs2 a s) as [[sts r] s']. reflexivity.
  - destruct (f a s) as [[a'|e] s'].
    + rewrite IH. destruct (vasync_pipeline fs1 a' s') as [[sts [a2|e]] s2].
      * destruct (vasync_pipeline fs2 a2 s2) as [[sts2 r] s3]. reflexivity.
      * reflexivity.
    + now rewrite map_app.
Qed.

(** The first function that fails ends the pipeline: the functions after it
    stay waiting and the state is the one the failing function left. *)
Lemma pipeline_first_failure {A T : Type} (done rest : list (A -> T -> Res A * T))
  f a s sts a' s' e s'' :
  vasync_pipeline done a s = (sts, Ok a', s') ->
  f a' s' = (Err e, s'') ->
  vasync_pipeline (done ++ f :: rest)%list a s =
  ((sts ++ st_fail :: map (fun _ => st_waiting) rest)%list, Err e, s'').
Proof.
  intros Hd Hf. rewrite pipeline_app, Hd. simpl. now rewrite Hf.
Qed.

(** The statuses of a pipeline: [ok] up to the first failure, [waiting]
    after it. *)
Lemma pipeline_statuses {A T : Type} (funcs : list (A -> T -> Res A * T)) a s :
  forall sts r s', vasync_pipeline funcs a s = (sts, r, s') ->
  exists n,
    sts = (repeat st_ok n ++
           (if is_ok r then []
            else st_fail :: repeat st_waiting (List.length funcs - S n)))%list /\
    (if is_ok r then n = List.length funcs else n < List.length funcs).
Proof.
  revert a s. induction funcs as [|f funcs IH]; intros a s sts r s' H; simpl in H.
  - inversion H; subst. exists 0. simpl. auto.
  - destruct (f a s) as [[a'|e] s1].
    + destruct (vasync_pipeline funcs a' s1) as [[sts1 r1] s2] eqn:E.
      inversion H; subst. destruct (IH _ _ _ _ _ E) as [n [Hs Hn]].
      exists (S n). simpl. rewrite Hs at 1. split; auto.
      destruct (is_ok r); lia.
    + inversion H; subst. exists 0. simpl. split; [|lia].
      rewrite Nat.sub_0_r. f_equal. clear. induction funcs; simpl; congruence.
Qed.

Lemma Forall2_combine_In {A B : Type} (R : A -> B -> Prop) (l1 : list A) (l2 : list B) a :
  Forall2 R l1 l2 -> In a l1 -> exists b, In (a, b) (combine l1 l2) /\ R a b.
Proof.
  induction 1 as [|x y l1 l2 Hxy _ IH]; simpl; [tauto|].
  intros [->|Hin].
  - eauto.
  - destruct (IH Hin) as [b [Hb HR]]. eauto.
Qed.

(** ** The statement builders *)

Lemma insert_fields_values ndx keys keyStr valStr values :
  snd (insert_fields ndx keys (keyStr, valStr, values))
  = (values ++ map (fun k => param_of (index_get ndx k)) keys)%list.
Proof.
  revert keyStr valStr values.
  induction keys as [|k keys IH]; intros keyStr valStr values; simpl.
  - now rewrite app_nil_r.
  - rewrite IH, <- app_assoc. reflexivity.
Qed.

Lemma update_fields_cons schema ndx k keys extraStr vals :
  update_fields schema (Some ndx) (k :: keys) (extraStr, vals) =
  if truthy (index_get ndx k) then
    match obj_get schema k with
    | None => Err (TypeError "Cannot read property 'type' of undefined")
    | Some d =>
        update_fields schema (Some ndx) keys
          ((extraStr ++ ", " ++ k ++ "=") ++ "$" ++ nat_toString (List.length vals + 1),
           match update_param (type d)
                   (match obj_get ndx k with Some s => s | None => "" end) with
           | Some p => (vals ++ [p])%list
           | None => vals
           end)
    end
  else update_fields schema (Some ndx) keys ((extraStr ++ ", " ++ k ++ "=") ++ "NULL", vals).
Proof. reflexivity. Qed.

Lemma join_cons x segs : join (x :: segs) = x ++ join segs.
Proof. reflexivity. Qed.

Lemma update_fields_segments schema ndx :
  forall keys extraStr vals,
    incl keys (obj_keys schema) ->
    exists segs extra,
      update_fields schema (Some ndx) keys (extraStr, vals)
      = Ok (extraStr ++ join segs, (vals ++ extra)%list) /\
      Forall2 (assignment_of ndx) keys segs.
Proof.
  induction keys as [|k keys IH]; intros extraStr vals Hin.
  - exists [], []. simpl. now rewrite string_app_nil_r, app_nil_r.
  - assert (Hk : In k (obj_keys schema)) by (apply Hin; now left).
    assert (Hin' : incl keys (obj_keys schema))
      by (intros x Hx; apply Hin; now right).
    destruct (obj_get_keys schema k Hk) as [d Hd].
    rewrite update_fields_cons.
    destruct (truthy (index_get ndx k)) eqn:Ht.
    + rewrite Hd.
      set (rhs := "$" ++ nat_toString (List.length vals + 1)).
      set (vals1 := match update_param (type d) _ with
                    | Some p => (vals ++ [p])%list
                    | None => vals
                    end).
      destruct (IH ((extraStr ++ ", " ++ k ++ "=") ++ rhs) vals1 Hin')
        as [segs [extra [E F]]].
      exists ((", " ++ k ++ "=" ++ rhs) :: segs).
      exists (match update_param (type d)
                      (match obj_get ndx k with Some s => s | None => "" end) with
              | Some p => p :: extra
              | None => extra
              end).
      split.
      * rewrite E. f_equal. f_equal.
        -- rewrite join_cons. now rewrite !string_app_assoc.
        -- subst vals1. destruct (update_param _ _); auto.
           now rewrite <- app_assoc.
      * constructor; auto. exists rhs. repeat split.
        -- congruence.
        -- intros _. subst rhs. eauto.
    + destruct (IH ((extraStr ++ ", " ++ k ++ "=") ++ "NULL") vals Hin')
        as [segs [extra [E F]]].
      exists ((", " ++ k ++ "=" ++ "NULL") :: segs), extra.
      split.
      * rewrite E. f_equal. f_equal. rewrite join_cons.
        now rewrite !string_app_assoc.
      * constructor; auto. exists "NULL". repeat split. congruence.
Qed.

(** [update] looks at the projection only through the truthiness of its
    entries, and at a truthy entry through its string. *)
Lemma update_fields_same_truthy schema ndx1 ndx2 :
  (forall k, truthy (index_get ndx1 k) = truthy (index_get ndx2 k)) ->
  (forall k, truthy (index_get ndx1 k) = true -> obj_get ndx1 k = obj_get ndx2 k) ->
  forall keys acc,
    update_fields schema (Some ndx1) keys acc = update_fields schema (Some ndx2) keys acc.
Proof.
  intros Ht Hs. induction keys as [|k keys IH]; intros [extraStr vals]; simpl; auto.
  rewrite <- Ht. destruct (truthy (index_get ndx1 k)) eqn:E; auto.
  rewrite <- (Hs k E). destruct (obj_get schema k); auto.
Qed.

Lemma index_get_remove_empty ndx k :
  obj_get ndx k = Some "" ->
  (forall k0, truthy (index_get ndx k0) = truthy (index_get (obj_remove ndx k) k0)) /\
  (forall k0, truthy (index_get ndx k0) = true ->
              obj_get ndx k0 = obj_get (obj_remove ndx k) k0).
Proof.
  intros Hk. split; intros k0; unfold index_get;
    destruct (String.eqb k0 k) eqn:E.
  - apply String.eqb_eq in E. subst k0.
    now rewrite Hk, obj_get_remove_same.
  - apply String.eqb_neq in E. now rewrite obj_get_remove_other.
  - apply String.eqb_eq in E. subst k0. rewrite Hk. simpl. discriminate.
  - apply String.eqb_neq in E. now rewrite obj_get_remove_other.
Qed.

(** A declared field whose document value is a scalar ends in the projection
    as the string of that scalar. *)
Lemma index_fields_scalar schema object k v s :
  get_prop object k = Ok v -> scalar_toString v = Some s ->
  forall keys ndx ndx',
    index_fields schema keys object ndx = Ok ndx' ->
    In k keys \/ obj_get ndx k = Some s ->
    obj_get ndx' k = Some s.
Proof.
  intros Hk Hs keys. induction keys as [|a keys IH]; intros ndx ndx' H Hor; simpl in H.
  - inversion H; subst. destruct Hor as [[]|]; auto.
  - destruct (get_prop object a) as [va|e] eqn:Ea; [|discriminate].
    destruct (obj_get schema a) as [d|]; [|discriminate].
    destruct (_index a va (type d) ndx) as [[r ndx1]|e] eqn:Ei; [|discriminate].
    apply (IH _ _ H).
    destruct (String.eqb a k) eqn:E.
    + apply String.eqb_eq in E. subst a. rewrite Hk in Ea. inversion Ea; subst va.
      rewrite (_index_scalar k v (type d) ndx s Hs) in Ei. inversion Ei.
      right. apply obj_get_set_same.
    + apply String.eqb_neq in E.
      destruct Hor as [[?|Hin]|Hg]; [congruence|now left|].
      right. rewrite <- Hg. eapply _index_frame; eauto.
Qed.

(** ** The write path *)




Section PutFacts.

Context {World : Type} {ext : Externals World}.

Local Abbreviation Req := (Req World).
Local Abbreviation St := (St World).

Lemma insert_statement_values (req : Req) ndx w :
  snd (insert_statement req ndx w) =
  ([PStr (key req); PStr (_value req); PStr (_createEtag req); PNum (_now w)]
     ++ map (fun k => param_of (index_get ndx k)) (obj_keys ndx))%list.
Proof.
  unfold insert_statement.
  pose proof (insert_fields_values ndx (obj_keys ndx) "" ""
                [PStr (key req); PStr (_value req); PStr (_createEtag req);
                 PNum (_now w)]) as H.
  destruct (insert_fields ndx (obj_keys ndx) _) as [[keyStr valStr] values].
  exact H.
Qed.

Lemma update_statement_segments (req : Req) schema ndx w :
  index req = Some ndx ->
  exists segs extra,
    update_statement req schema w =
    Ok ("UPDATE " ++ name (bucket req) ++ " SET _value=$1, _etag=$2" ++ join segs
          ++ ", _mtime=" ++ Z_toString (_now w)
          ++ " WHERE _key='" ++ key req ++ "'",
        PStr (_value req) :: PStr (_createEtag req) :: extra) /\
    Forall2 (assignment_of ndx) (obj_keys schema) segs.
Proof.
  intros Hi. unfold update_statement. rewrite Hi.
  destruct (update_fields_segments schema ndx (obj_keys schema) ""
              [PStr (_value req); PStr (_createEtag req)] (incl_refl _))
    as [segs [extra [E F]]].
  rewrite E. exists segs, extra. split; auto.
Qed.


Lemma update_sends (req : Req) (st : St) schema sql vals :
  truthy (previous req) = true ->
  bucket_index (bucket req) = Some schema ->
  update_statement req schema (world st) = Ok (sql, vals) ->
  exists r st',
    update req st = (r, st') /\
    (forall req', r = Ok req' -> req' = req) /\
    queries st' =
    (queries st ++ [{| q_origin := ByUpdate; q_sql := sql; q_values := vals |}])%list.
Proof.
  intros Hp Hb Hu. unfold update. rewrite Hp, Hb, Hu. simpl.
  unfold query. destruct (pg_query sql vals (world st)) as [[rows|e] w']; simpl.
  - eexists _, _. split; [reflexivity|]. split; auto. intros ? H. now inversion H.
  - eexists _, _. split; [reflexivity|]. split; auto. discriminate.
Qed.

Lemma insert_sends (req : Req) (st : St) ndx :
  truthy (previous req) = false ->
  index req = Some ndx ->
  exists r st',
    insert req st = (r, st') /\
    (forall req', r = Ok req' ->
                  previous req' = previous req /\ bucket req' = bucket req /\
                  index req' = index req /\ _value req' = _value req) /\
    queries st' =
    (queries st ++ [{| q_origin := ByInsert;
                       q_sql := fst (insert_statement req ndx (world st));
                       q_values := snd (insert_statement req ndx (world st)) |}])%list.
Proof.
  intros Hp Hi. unfold insert. rewrite Hp, Hi.
  destruct (insert_statement req ndx (world st)) as [sql values]. simpl.
  unfold query. destruct (pg_query sql values (world st)) as [[rows|e] w']; simpl.
  - destruct (get_prop (nth 0 rows JUndefined) "_id") as [id|e].
    + destruct (set__id (value req) id) as [v'|e].
      * eexists _, _. split; [reflexivity|]. split; auto.
        intros ? H. inversion H; subst. simpl. auto.
      * eexists _, _. split; [reflexivity|]. split; auto. discriminate.
    + eexists _, _. split; [reflexivity|]. split; auto. discriminate.
  - eexists _, _. split; [reflexivity|]. split; auto. discriminate.
Qed.

(** C8.  The version token depends on the request through its serialized
    value alone: two requests with the same [_value] get the same etag. *)
Theorem C8_etag_is_a_function_of_the_serialized_value (r1 r2 : Req) :
  _value r1 = _value r2 -> _createEtag r1 = _createEtag r2.
Proof.
  unfold _createEtag. now intros ->.
Qed.

(** C4.  [insert] binds the projected strings as they are: its values are
    the four base values followed by [req.index[k]] for each projected
    field, with no regard for the declared type, while [update] encodes by
    type; a safe integer printed by the projector is read back by the
    update as that integer.  With schema
    [{email: string, age: number, admin: boolean}] and document
    [{email: a@b.com, age: 30, admin: true}], the insert binds ["30"] and
    ["true"] where the update binds [30] and ["TRUE"]. *)
Theorem C4_insert_binds_unencoded_strings :
  (forall (req : Req) ndx w,
      snd (insert_statement req ndx w) =
      ([PStr (key req); PStr (_value req); PStr (_createEtag req); PNum (_now w)]
         ++ map (fun k => param_of (index_get ndx k)) (obj_keys ndx))%list) /\
  (forall s, update_param "boolean" s = Some (PStr (toUpperCase s))) /\
  (forall s, update_param "number" s
             = Some (match parseInt s with Some n => PNum n | None => PNaN end)) /\
  (forall s, update_param "string" s = Some (PStr s)) /\
  (forall n, safe_integer n = true ->
             update_param "number" (Z_toString n) = Some (PNum n)) /\
  (let doc := JObj [("email", JStr "a@b.com"); ("age", JNum 30); ("admin", JBool true)] in
   map q_values
       (queries (snd (_put (ext := Demo.externals) "users" "u2" doc
                           (Demo.opts_for doc) Demo.w0)))
   = [[PStr "u2"; PStr (Demo.stringify doc);
       PStr (Demo.hex32 (Demo.crc32 (Demo.stringify doc))); PNum 1500;
       PStr "a@b.com"; PStr "30"; PStr "true"]] /\
   map q_values
       (queries (snd (_put (ext := Demo.externals) "users" "u1" doc
                           (Demo.opts_for doc) Demo.w0)))
   = [[PStr (Demo.stringify doc);
       PStr (Demo.hex32 (Demo.crc32 (Demo.stringify doc)));
       PStr "a@b.com"; PNum 30; PStr "TRUE"]]).
Proof.
  split; [intros; apply insert_statement_values|].
  split; [reflexivity|]. split; [reflexivity|]. split; [reflexivity|].
  split; [intros n _; unfold update_param; simpl; now rewrite parseInt_Z_toString|].
  split; vm_compute; reflexivity.
Qed.


(** C9.  [update] tests [req.index[k]] for truthiness, and the empty string
    is falsy: a declared field, not named like a member of
    [Object.prototype], whose document value is the empty string is
    projected to the empty string, and the statement then assigns [NULL] to
    its column; statement and values are those built from a projection
    without the field. *)
Theorem C9_empty_string_is_written_as_null (req : Req) (schema : Schema)
  (ndx : Projection) (k : string) (w : World) :
  prototype_member k = false ->
  In k (obj_keys schema) ->
  get_prop (value req) k = Ok (JStr "") ->
  _indexObject schema (value req) = Ok ndx ->
  obj_get ndx k = Some "" /\
  update_statement (set_index req (Some ndx)) schema w
  = update_statement (set_index req (Some (obj_remove ndx k))) schema w /\
  exists segs extra,
    update_statement (set_index req (Some ndx)) schema w =
    Ok ("UPDATE " ++ name (bucket req) ++ " SET _value=$1, _etag=$2" ++ join segs
          ++ ", _mtime=" ++ Z_toString (_now w)
          ++ " WHERE _key='" ++ key req ++ "'",
        PStr (_value req) :: PStr (_createEtag req) :: extra) /\
    In (k, ", " ++ k ++ "=NULL") (combine (obj_keys schema) segs).
Proof.
  intros _ Hk Hv Hx.
  assert (Hg : obj_get ndx k = Some "").
  { unfold _indexObject in Hx.
    destruct (assert_object (value req) "object"); [|discriminate].
    destruct (Nat.eqb (List.length (obj_keys schema)) 0) eqn:E0.
    - destruct schema; [destruct Hk | discriminate].
    - eapply (index_fields_scalar schema (value req) k (JStr "") "" Hv eq_refl); eauto. }
  split; [exact Hg|]. split.
  - unfold update_statement. simpl.
    destruct (index_get_remove_empty ndx k Hg) as [H1 H2].
    now rewrite (update_fields_same_truthy schema ndx (obj_remove ndx k) H1 H2).
  - destruct (update_statement_segments (set_index req (Some ndx)) schema ndx w eq_refl)
      as [segs [extra [E F]]].
    exists segs, extra. split; [exact E|].
    destruct (Forall2_combine_In _ _ _ k F Hk) as [seg [Hin [rhs [Hs [Hnull _]]]]].
    rewrite Hnull in Hs by (unfold index_get; now rewrite Hg).
    rewrite Hs in Hin. exact Hin.
Qed.

Lemma step_pipeline_app (fs1 fs2 : list (Step World)) (a : Req) (s : St) :
  vasync_pipeline (fs1 ++ fs2)%list a s =
  match vasync_pipeline fs1 a s with
  | (sts, Ok a', s') =>
      let '(sts2, r, s'') := vasync_pipeline fs2 a' s' in ((sts ++ sts2)%list, r, s'')
  | (sts, Err e, s') => ((sts ++ map (fun _ => st_waiting) fs2)%list, Err e, s')
  end.
Proof. apply pipeline_app. Qed.

Lemma step_pipeline_cons (f : Step World) (fs : list (Step World)) (a : Req) (s : St) :
  vasync_pipeline (f :: fs) a s =
  match f a s with
  | (Err e, s') => (st_fail :: map (fun _ => st_waiting) fs, Err e, s')
  | (Ok a', s') =>
      let '(sts, r, s'') := vasync_pipeline fs a' s' in (st_ok :: sts, r, s'')
  end.
Proof. reflexivity. Qed.

Lemma common_queries (f : ExtStep World) (req : Req) (st : St) :
  queries (snd (common f req st)) = queries st.
Proof. unfold common. destruct (f req (world st)) as [r w']. reflexivity. Qed.

Lemma runPreChain_queries (req : Req) (st : St) :
  queries (snd (runPreChain req st)) = queries st.
Proof.
  unfold runPreChain. destruct (pre (bucket req)) as [hooks|]; auto.
  destruct (Nat.eqb (List.length hooks) 0); auto.
  destruct (vasync_pipeline hooks (cookie_of req) (world st)) as [[sts [c|e]] w'];
    reflexivity.
Qed.

Lemma indexObject_state (req : Req) (st : St) : snd (indexObject req st) = st.
Proof.
  unfold indexObject. destruct (bucket_index (bucket req)) as [schema|]; auto.
  destruct (_indexObject schema (value req)); reflexivity.
Qed.

Lemma indexObject_ok (req req' : Req) (st : St) :
  fst (indexObject req st) = Ok req' ->
  exists schema ndx,
    bucket_index (bucket req') = Some schema /\ index req' = Some ndx /\
    _indexObject schema (value req) = Ok ndx /\
    previous req' = previous req /\ _value req' = _value req.
Proof.
  unfold indexObject. destruct (bucket_index (bucket req)) as [schema|] eqn:Eb;
    [|discriminate].
  destruct (_indexObject schema (value req)) as [ndx|e] eqn:Ex; [|discriminate].
  simpl. intros H. inversion H; subst. simpl. eauto 10.
Qed.

(** [insert] then [update] on a projected request: one statement is sent,
    by [update] when [req.previous] is truthy and by [insert] otherwise;
    it binds [req._value] and its etag. *)
Lemma insert_then_update (req : Req) (st : St) ndx schema :
  index req = Some ndx ->
  bucket_index (bucket req) = Some schema ->
  exists sts r st' q,
    vasync_pipeline [insert; update] req st = (sts, r, st') /\
    queries st' = (queries st ++ [q])%list /\
    q_origin q = (if truthy (previous req) then ByUpdate else ByInsert) /\
    In (PStr (_value req)) (q_values q) /\
    In (PStr (_createEtag req)) (q_values q).
Proof.
  intros Hi Hb. destruct (truthy (previous req)) eqn:Hp.
  - destruct (update_statement_segments req schema ndx (world st) Hi)
      as [segs [extra [E _]]].
    destruct (update_sends req st schema _ _ Hp Hb E) as [r [st' [Hu [_ Hq]]]].
    simpl. unfold insert at 1. rewrite Hp, Hu.
    destruct r as [req'|e]; eexists _, _, _, _; (split; [reflexivity|]);
      (split; [exact Hq|]); simpl; auto.
  - destruct (insert_sends req st ndx Hp Hi) as [r [st' [Hu [Hr Hq]]]].
    simpl. rewrite Hu. destruct r as [req'|e].
    + destruct (Hr req' eq_refl) as [Hp' _].
      unfold update. rewrite Hp', Hp. simpl.
      eexists _, _, _, _. split; [reflexivity|]. split; [exact Hq|]. simpl.
      rewrite insert_statement_values. simpl.
      split; [reflexivity|split; [right; left|right; right; left]; reflexivity].
    + eexists _, _, _, _. split; [reflexivity|]. split; [exact Hq|]. simpl.
      rewrite insert_statement_values. simpl.
      split; [reflexivity|split; [right; left|right; right; left]; reflexivity].
Qed.

Lemma first_four_queries (arg : Req) (st0 : St) :
  queries (snd (vasync_pipeline
                  [common loadBucket; common selectForUpdate; runPreChain;
                   common checkEtag] arg st0)) = queries st0.
Proof.
  simpl.
  pose proof (common_queries loadBucket arg st0) as H1.
  destruct (common loadBucket arg st0) as [[r1|e] s1]; simpl in *; auto.
  pose proof (common_queries selectForUpdate r1 s1) as H2.
  destruct (common selectForUpdate r1 s1) as [[r2|e] s2]; simpl in *; [|congruence].
  pose proof (runPreChain_queries r2 s2) as H3.
  destruct (runPreChain r2 s2) as [[r3|e] s3]; simpl in *; [|congruence].
  pose proof (common_queries checkEtag r3 s3) as H4.
  destruct (common checkEtag r3 s3) as [[r4|e] s4]; simpl in *; congruence.
Qed.

Lemma statuses_ok_all {A T : Type} (funcs : list (A -> T -> Res A * T)) a s sts a' s' :
  vasync_pipeline funcs a s = (sts, Ok a', s') ->
  sts = repeat st_ok (List.length funcs).
Proof.
  intros H. destruct (pipeline_statuses funcs a s _ _ _ H) as [n [Hs Hn]].
  simpl in *. subst n. now rewrite app_nil_r in Hs.
Qed.

Lemma statuses_length {A T : Type} (funcs : list (A -> T -> Res A * T)) a s :
  List.length (fst (fst (vasync_pipeline funcs a s))) = List.length funcs.
Proof.
  revert a s. induction funcs as [|f funcs IH]; intros a s; simpl; auto.
  destruct (f a s) as [[a'|e] s1].
  - specialize (IH a' s1).
    destruct (vasync_pipeline funcs a' s1) as [[sts r] s2]. simpl in *. congruence.
  - simpl. now rewrite length_map.
Qed.

Lemma statuses_failed_before {A T : Type} (funcs tail : list (A -> T -> Res A * T))
  a s sts e s' :
  vasync_pipeline funcs a s = (sts, Err e, s') ->
  nth (List.length funcs) (sts ++ map (fun _ => st_waiting) tail)%list st_waiting
  = st_waiting.
Proof.
  intros H. pose proof (statuses_length funcs a s) as L. rewrite H in L. simpl in L.
  rewrite app_nth2 by lia. rewrite L, Nat.sub_diag.
  destruct tail; reflexivity.
Qed.

(** C1.  Of [insert] and [update], one sends its statement and the other
    returns at its guard, and which one is decided by [req.previous] alone.
    On a projected request, running the two steps sends exactly one
    statement; it comes from [insert] exactly when [req.previous] is falsy
    and from [update] exactly when it is truthy.  In the pipeline of [put],
    a run that gets past [indexObject] (every successful one does) sends
    exactly one statement, chosen by the [previous] of the request as it
    leaves [indexObject]; a run stopped before sends none. *)
Theorem C1_insert_xor_update :
  (forall (req : Req) (st : St) ndx schema,
      index req = Some ndx ->
      bucket_index (bucket req) = Some schema ->
      exists sts r st' q,
        vasync_pipeline [insert; update] req st = (sts, r, st') /\
        queries st' = (queries st ++ [q])%list /\
        (q_origin q = ByInsert <-> truthy (previous req) = false) /\
        (q_origin q = ByUpdate <-> truthy (previous req) = true)) /\
  (forall (arg : Req) (st0 : St) sts r st,
      vasync_pipeline put_funcs arg st0 = (sts, r, st) ->
      (is_ok r = true -> nth 4 sts st_waiting = st_ok) /\
      (nth 4 sts st_waiting <> st_ok -> queries st = queries st0) /\
      (nth 4 sts st_waiting = st_ok ->
       exists sts5 req5 st5 q,
         vasync_pipeline (firstn 5 put_funcs) arg st0 = (sts5, Ok req5, st5) /\
         queries st = (queries st0 ++ [q])%list /\
         (q_origin q = ByInsert <-> truthy (previous req5) = false) /\
         (q_origin q = ByUpdate <-> truthy (previous req5) = true))).
Proof.
  assert (Pair : forall (req : Req) (st : St) ndx schema,
      index req = Some ndx ->
      bucket_index (bucket req) = Some schema ->
      exists sts r st' q,
        vasync_pipeline [insert; update] req st = (sts, r, st') /\
        queries st' = (queries st ++ [q])%list /\
        (q_origin q = ByInsert <-> truthy (previous req) = false) /\
        (q_origin q = ByUpdate <-> truthy (previous req) = true)).
  { intros req st ndx schema Hi Hb.
    destruct (insert_then_update req st ndx schema Hi Hb)
      as [sts [r [st' [q [E [Hq [Ho _]]]]]]].
    exists sts, r, st', q. split; [exact E|]. split; [exact Hq|].
    rewrite Ho. destruct (truthy (previous req)); split; split;
      intros; congruence. }
  split; [exact Pair|].
  intros arg st0 sts r st H.
  change put_funcs with
    ([common loadBucket; common selectForUpdate; runPreChain; common checkEtag]
       ++ indexObject :: ([insert; update] ++ [common runPostChain]))%list in H.
  rewrite step_pipeline_app in H.
  pose proof (first_four_queries arg st0) as Q4.
  destruct (vasync_pipeline
              [common loadBucket; common selectForUpdate; runPreChain;
               common checkEtag] arg st0) as [[sts4 [req4|e4]] s4] eqn:E4.
  - pose proof (statuses_ok_all _ _ _ _ _ _ E4) as S4. simpl in S4, Q4.
    cbn [vasync_pipeline] in H.
    pose proof (indexObject_state req4 s4) as I5.
    pose proof (indexObject_ok req4) as O5.
    destruct (indexObject req4 s4) as [[req5|e5] s5] eqn:E5; simpl in I5; subst s5.
    + destruct (O5 req5 s4) as [schema [ndx [Hb [Hi _]]]];
        [now rewrite E5|].
      destruct (Pair req5 s4 ndx schema Hi Hb)
        as [stsIU [rIU [sIU [q [EIU [HqIU Horigin]]]]]].
      change (vasync_pipeline (insert :: update :: [common runPostChain]) req5 s4)
        with (vasync_pipeline ([insert; update] ++ [common runPostChain])%list req5 s4)
        in H.
      change (vasync_pipeline (([insert; update] ++ [common runPostChain]))%list req5 s4)
        with (vasync_pipeline ([insert; update] ++ [common runPostChain])%list req5 s4)
        in H.
      rewrite step_pipeline_app, EIU in H.
      assert (Hst : queries st = (queries st0 ++ [q])%list /\
                    nth 4 sts st_waiting = st_ok).
      { destruct rIU as [req7|e7].
        - cbn [vasync_pipeline] in H.
          pose proof (common_queries runPostChain req7 sIU) as Q8.
          destruct (common runPostChain req7 sIU) as [[req8|e8] s8];
            inversion H; subst; simpl in *; split; congruence.
        - inversion H; subst; simpl in *. split; congruence. }
      destruct Hst as [Hq Hn]. split; [auto|]. split; [congruence|].
      intros _. exists [st_ok; st_ok; st_ok; st_ok; st_ok], req5, s4, q.
      split; [|split; [exact Hq|exact Horigin]].
      change (firstn 5 put_funcs) with
        ([common loadBucket; common selectForUpdate; runPreChain; common checkEtag]
           ++ [indexObject])%list.
      rewrite step_pipeline_app, E4. cbn [vasync_pipeline]. rewrite E5, S4. reflexivity.
    + inversion H; subst. simpl. split; [discriminate|]. split; [auto|discriminate].
  - inversion H; subst.
    pose proof (statuses_failed_before _
                  [indexObject; insert; update; common runPostChain]
                  _ _ _ _ _ E4) as W.
    simpl in W. cbn [is_ok]. split; [discriminate|].
    change (map (fun _ => st_waiting)
                (indexObject :: ([insert; update] ++ [common runPostChain])%list))
      with (map (fun _ : Req -> St -> Res Req * St => st_waiting)
                [indexObject; insert; update; common runPostChain]).
    split.
    + intros _. exact Q4.
    + intros C. simpl in C. rewrite W in C. discriminate.
Qed.

Lemma runPreChain_hook_failure (req : Req) (st : St) hooks sts e w' :
  pre (bucket req) = Some hooks ->
  vasync_pipeline hooks (cookie_of req) (world st) = (sts, Err e, w') ->
  runPreChain req st = (Err e, {| world := w'; queries := queries st |}).
Proof.
  intros Hp Hh. unfold runPreChain. rewrite Hp.
  destruct hooks as [|h hooks]; [discriminate|].
  cbn [List.length Nat.eqb]. now rewrite Hh.
Qed.

(** C3.  The pipeline of [put] runs [loadBucket], [selectForUpdate],
    [runPreChain], [checkEtag], [indexObject], [insert], [update] and
    [runPostChain] in that order and stops at the first failure: the
    statuses of a run are [ok] for the steps before the failing one and
    [waiting] for all steps after it, and its outcome and its state are the
    ones the failing step left.  The hooks of a pre-chain run the same way,
    and a failing hook makes [runPreChain] fail with its error; when
    [runPreChain] fails no statement has been sent and [insert], [update]
    and [runPostChain] never start. *)
Theorem C3_pipeline_order_and_first_failure :
  @put_funcs World ext =
  [common loadBucket; common selectForUpdate; runPreChain; common checkEtag;
   indexObject; insert; update; common runPostChain] /\
  (forall (arg : Req) (st0 : St) sts r st,
      vasync_pipeline put_funcs arg st0 = (sts, r, st) ->
      exists n,
        sts = (repeat st_ok n ++
               (if is_ok r then [] else st_fail :: repeat st_waiting (7 - n)))%list /\
        (if is_ok r then n = 8 else n < 8)) /\
  (forall (done rest : list (Step World)) f (arg : Req) (st0 : St) sts' arg' st' e st'',
      put_funcs = (done ++ f :: rest)%list ->
      vasync_pipeline done arg st0 = (sts', Ok arg', st') ->
      f arg' st' = (Err e, st'') ->
      vasync_pipeline put_funcs arg st0 =
      ((sts' ++ st_fail :: map (fun _ => st_waiting) rest)%list, Err e, st'')) /\
  (forall (req : Req) (st : St) hooks (done rest : list (Hook World)) h sts' c' w' e w'',
      pre (bucket req) = Some hooks ->
      hooks = (done ++ h :: rest)%list ->
      vasync_pipeline done (cookie_of req) (world st) = (sts', Ok c', w') ->
      h c' w' = (Err e, w'') ->
      runPreChain req st = (Err e, {| world := w''; queries := queries st |})) /\
  (forall (arg : Req) (st0 : St) sts r st,
      vasync_pipeline put_funcs arg st0 = (sts, r, st) ->
      nth 2 sts st_ok = st_fail ->
      queries st = queries st0 /\
      sts = [st_ok; st_ok; st_fail; st_waiting; st_waiting; st_waiting;
             st_waiting; st_waiting] /\
      exists e, r = Err e).
Proof.
  split; [reflexivity|]. split; [|split; [|split]].
  - intros arg st0 sts r st H.
    destruct (pipeline_statuses _ _ _ _ _ _ H) as [n [Hs Hn]].
    exists n. split; auto.
  - intros done rest f arg st0 sts' arg' st' e st'' Hf Hd He.
    rewrite Hf. eapply pipeline_first_failure; eauto.
  - intros req st hooks done rest h sts' c' w' e w'' Hp Hh Hd He.
    apply (runPreChain_hook_failure req st hooks
             (sts' ++ st_fail :: map (fun _ => st_waiting) rest)%list); auto.
    subst hooks. eapply pipeline_first_failure; eauto.
  - intros arg st0 sts r st H Hn.
    change put_funcs with
      ([common loadBucket; common selectForUpdate]
         ++ runPreChain ::
            [common checkEtag; indexObject; insert; update; common runPostChain])%list
      in H.
    rewrite step_pipeline_app in H.
    assert (Q2 : queries (snd (vasync_pipeline
                                 [common loadBucket; common selectForUpdate] arg st0))
                 = queries st0).
    { simpl.
      pose proof (common_queries loadBucket arg st0) as H1.
      destruct (common loadBucket arg st0) as [[r1|e] s1]; simpl in *; auto.
      pose proof (common_queries selectForUpdate r1 s1) as H2.
      destruct (common selectForUpdate r1 s1) as [[r2|e] s2]; simpl in *; congruence. }
    destruct (vasync_pipeline [common loadBucket; common selectForUpdate] arg st0)
      as [[sts2 [req2|e2]] s2] eqn:E2.
    + pose proof (statuses_ok_all _ _ _ _ _ _ E2) as S2. simpl in S2, Q2. subst sts2.
      rewrite step_pipeline_cons in H.
      pose proof (runPreChain_queries req2 s2) as Q3.
      destruct (runPreChain req2 s2) as [[req3|e3] s3] eqn:E3.
      * destruct (vasync_pipeline
                    [common checkEtag; indexObject; insert; update; common runPostChain]
                    req3 s3) as [[sts5 r5] s5].
        inversion H; subst. simpl in Hn. discriminate.
      * inversion H; subst. simpl in *. split; [congruence|]. split; eauto.
    + inversion H; subst.
      pose proof (statuses_failed_before _
                    [runPreChain; common checkEtag; indexObject; insert; update;
                     common runPostChain] _ _ _ _ _ E2) as W.
      simpl in W. simpl in Hn.
      rewrite (nth_indep _ st_ok st_waiting) in Hn.
      * rewrite W in Hn. discriminate.
      * pose proof (statuses_length [common loadBucket; common selectForUpdate]
                      arg st0) as L.
        rewrite E2 in L. simpl in L. rewrite length_app. simpl. lia.
Qed.

(** C10.  With an empty pre-chain [runPreChain] hands the request back as
    it is, so [req._value] is still what [put] copied from [opts._value];
    [insert] and [update] bind that string and the etag computed from it.
    Only a non-empty pre-chain whose hooks all succeed replaces [req._value]
    by the serialization of the value the hooks left; a failing chain fails
    the step.  From [runPreChain] to [update], provided [checkEtag] leaves
    [_value] alone, every statement sent for a request with an empty
    pre-chain binds the [_value] the request came with and its etag. *)
Theorem C10_empty_pre_chain_keeps_supplied_serialization :
  (forall (req : Req) (st : St),
      pre (bucket req) = Some [] -> runPreChain req st = (Ok req, st)) /\
  (forall (req : Req) (st : St) hooks sts cookie w',
      pre (bucket req) = Some hooks -> hooks <> [] ->
      vasync_pipeline hooks (cookie_of req) (world st) = (sts, Ok cookie, w') ->
      runPreChain req st
      = (Ok (after_pre_chain req cookie), {| world := w'; queries := queries st |}) /\
      _value (after_pre_chain req cookie) = JSON_stringify (cookie_value cookie) /\
      value (after_pre_chain req cookie) = cookie_value cookie) /\
  (forall (req : Req) (st : St) hooks sts e w',
      pre (bucket req) = Some hooks ->
      vasync_pipeline hooks (cookie_of req) (world st) = (sts, Err e, w') ->
      runPreChain req st = (Err e, {| world := w'; queries := queries st |})) /\
  (forall b k v opts, _value (@put_arg World b k v opts) = opts__value opts) /\
  (forall (req : Req) ndx w,
      exists rest,
        snd (insert_statement req ndx w)
        = PStr (key req) :: PStr (_value req) :: PStr (hex32 (crc32 (_value req)))
            :: rest) /\
  (forall (req : Req) schema w sql vals,
      update_statement req schema w = Ok (sql, vals) ->
      exists rest,
        vals = PStr (_value req) :: PStr (hex32 (crc32 (_value req))) :: rest) /\
  (forall (req : Req) (st : St) sts r st' q,
      pre (bucket req) = Some [] ->
      (forall (r1 r2 : Req) w1 w2, checkEtag r1 w1 = (Ok r2, w2) -> _value r2 = _value r1) ->
      vasync_pipeline [runPreChain; common checkEtag; indexObject; insert; update] req st
      = (sts, r, st') ->
      In q (queries st') ->
      In q (queries st) \/
      (In (PStr (_value req)) (q_values q) /\
       In (PStr (hex32 (crc32 (_value req)))) (q_values q))).
Proof.
  split; [|split; [|split; [|split; [|split; [|split]]]]].
  - intros req st Hp. unfold runPreChain. now rewrite Hp.
  - intros req st hooks sts cookie w' Hp Hne Hh.
    split; [|split; reflexivity].
    unfold runPreChain. rewrite Hp.
    destruct hooks as [|h hooks]; [congruence|].
    cbn [List.length Nat.eqb]. now rewrite Hh.
  - intros req st hooks sts e w'. apply runPreChain_hook_failure.
  - reflexivity.
  - intros req ndx w. rewrite insert_statement_values. simpl. eauto.
  - intros req schema w sql vals H. unfold update_statement in H.
    destruct (index req) as [ndx|] eqn:Hi.
    + destruct (update_fields_segments schema ndx (obj_keys schema) ""
                  [PStr (_value req); PStr (_createEtag req)] (incl_refl _))
        as [segs [extra [E _]]].
      rewrite E in H. inversion H. simpl. eauto.
    + destruct (update_fields schema None (obj_keys schema) _) as [[x y]|e] eqn:E;
        [|discriminate].
      destruct (obj_keys schema); simpl in E; [|discriminate].
      inversion E; subst. inversion H. eauto.
  - intros req st sts r st' q Hp Hframe H Hin.
    assert (Hrun : runPreChain req st = (Ok req, st))
      by (unfold runPreChain; now rewrite Hp).
    rewrite step_pipeline_cons, Hrun, step_pipeline_cons in H.
    pose proof (common_queries checkEtag req st) as Q1.
    destruct (common checkEtag req st) as [[req1|e1] s1] eqn:E1; simpl in Q1.
    2:{ inversion H; subst. left. congruence. }
    assert (V1 : _value req1 = _value req).
    { unfold common in E1. destruct (checkEtag req (world st)) as [r' w'] eqn:E.
      inversion E1; subst. eapply Hframe; eauto. }
    rewrite step_pipeline_cons in H.
    pose proof (indexObject_state req1 s1) as I2.
    pose proof (indexObject_ok req1) as O2.
    destruct (indexObject req1 s1) as [[req2|e2] s2] eqn:E2; simpl in I2; subst s2.
    2:{ inversion H; subst. left. congruence. }
    destruct (O2 req2 s1) as [schema [ndx [Hb [Hi [_ [_ V2]]]]]]; [now rewrite E2|].
    destruct (insert_then_update req2 s1 ndx schema Hi Hb)
      as [stsIU [rIU [sIU [q' [EIU [HqIU [_ [Hv He]]]]]]]].
    rewrite EIU in H. inversion H; subst.
    rewrite HqIU, Q1 in Hin. apply in_app_or in Hin.
    destruct Hin as [Hin|[<-|[]]]; [now left|right].
    unfold _createEtag in He. rewrite V2, V1 in Hv, He. auto.
Qed.

End PutFacts.

(** ** The theorems at work on the concrete instance *)

#[local] Existing Instance Demo.externals.

Lemma Demo_checkEtag_keeps_value (r1 r2 : Req Demo.World) (w1 w2 : Demo.World) :
  Demo.checkEtag r1 w1 = (Ok r2, w2) -> _value r2 = _value r1.
Proof.
  unfold Demo.checkEtag. intros H.
  destruct (etag r1); [|now inversion H].
  destruct (previous r1); try (now inversion H).
  destruct (obj_get l "_etag") as [[| | | |e| |]|]; try (now inversion H).
  destruct (String.eqb e s); now inversion H.
Qed.

Lemma C8_etag_is_a_function_of_the_serialized_value_witness :
  _createEtag (ext := Demo.externals) Demo.req_new
  = _createEtag (ext := Demo.externals)
      (set_index (set_previous Demo.req_new (JObj [("_key", JStr "u2")])) None).
Proof.
  apply (@C8_etag_is_a_function_of_the_serialized_value Demo.World Demo.externals).
  reflexivity.
Defined.

Lemma C1_insert_xor_update_witness :
  exists sts r st' q,
    vasync_pipeline [insert (ext := Demo.externals); update] Demo.req_old Demo.st0
    = (sts, r, st') /\
    queries st' = (queries Demo.st0 ++ [q])%list /\
    (q_origin q = ByInsert <-> truthy (previous Demo.req_old) = false) /\
    (q_origin q = ByUpdate <-> truthy (previous Demo.req_old) = true).
Proof.
  apply (proj1 (@C1_insert_xor_update Demo.World Demo.externals)
           Demo.req_old Demo.st0 [("email", ""); ("age", "30")] Demo.users_schema);
    reflexivity.
Defined.

Lemma C3_pipeline_order_and_first_failure_witness :
  runPreChain (ext := Demo.externals) Demo.req_locked Demo.st0
  = (Err (ExternalError "rejected"), {| world := Demo.w0; queries := [] |}).
Proof.
  apply (proj1 (proj2 (proj2 (proj2
           (@C3_pipeline_order_and_first_failure Demo.World Demo.externals))))
           Demo.req_locked Demo.st0
           [Demo.hook_stamp; Demo.hook_reject; Demo.hook_stamp]
           [Demo.hook_stamp] [Demo.hook_stamp] Demo.hook_reject
           [st_ok]
           {| cookie_bucket := "locked"; cookie_key := "k1";
              cookie_schema := Some [("tag", {| type := "string" |})];
              cookie_value := JObj [("tag", JStr "x"); ("stamped", JBool true)];
              cookie_headers := JObj [] |}
           Demo.w0 (ExternalError "rejected") Demo.w0);
    reflexivity.
Defined.

Lemma C4_insert_binds_unencoded_strings_witness :
  safe_integer 30 = true /\
  update_param "number" (Z_toString 30) = Some (PNum 30).
Proof.
  split; [reflexivity|].
  apply (proj1 (proj2 (proj2 (proj2 (proj2
           (@C4_insert_binds_unencoded_strings Demo.World Demo.externals)))))
           30%Z eq_refl).
Defined.


Lemma C9_empty_string_is_written_as_null_witness :
  prototype_member "email" = false /\
  obj_get [("email", ""); ("age", "30")] "email" = Some "" /\
  update_statement (ext := Demo.externals)
    (set_index Demo.req_old (Some [("email", ""); ("age", "30")]))
    Demo.users_schema Demo.w0
  = update_statement (ext := Demo.externals)
      (set_index Demo.req_old (Some [("age", "30")])) Demo.users_schema Demo.w0 /\
  update_statement (ext := Demo.externals)
    (set_index Demo.req_old (Some [("email", ""); ("age", "30")]))
    Demo.users_schema Demo.w0
  = Ok ("UPDATE users SET _value=$1, _etag=$2, email=NULL, age=$3, admin=NULL, _mtime=1500 WHERE _key='u1'",
        [PStr (_value Demo.req_old);
         PStr (_createEtag (ext := Demo.externals) Demo.req_old); PNum 30]).
Proof.
  split; [reflexivity|].
  destruct (@C9_empty_string_is_written_as_null Demo.World Demo.externals
              Demo.req_old Demo.users_schema [("email", ""); ("age", "30")] "email"
              Demo.w0 eq_refl (or_introl eq_refl) eq_refl eq_refl) as [Hg [Hsame _]].
  split; [exact Hg|]. split; [exact Hsame|reflexivity].
Defined.

Lemma C10_empty_pre_chain_keeps_supplied_serialization_witness :
  runPreChain (ext := Demo.externals) Demo.req_new Demo.st0 = (Ok Demo.req_new, Demo.st0) /\
  forall q,
    In q (queries (snd (vasync_pipeline
                          [runPreChain (ext := Demo.externals); common checkEtag;
                           indexObject; insert; update] Demo.req_new Demo.st0))) ->
    In q (queries Demo.st0) \/
    (In (PStr (_value Demo.req_new)) (q_values q) /\
     In (PStr (hex32 (crc32 (_value Demo.req_new)))) (q_values q)).
Proof.
  split.
  - apply (proj1 (@C10_empty_pre_chain_keeps_supplied_serialization
                    Demo.World Demo.externals) Demo.req_new Demo.st0 eq_refl).
  - intros q.
    apply (proj2 (proj2 (proj2 (proj2 (proj2 (proj2
             (@C10_empty_pre_chain_keeps_supplied_serialization
                Demo.World Demo.externals))))))
             Demo.req_new Demo.st0
             (fst (fst (vasync_pipeline
                          [runPreChain (ext := Demo.externals); common checkEtag;
                           indexObject; insert; update] Demo.req_new Demo.st0)))
             (snd (fst (vasync_pipeline
                          [runPreChain (ext := Demo.externals); common checkEtag;
                           indexObject; insert; update] Demo.req_new Demo.st0)))
             (snd (vasync_pipeline
                     [runPreChain (ext := Demo.externals); common checkEtag;
                      indexObject; insert; update] Demo.req_new Demo.st0))
             q);
      [reflexivity | exact Demo_checkEtag_keeps_value | vm_compute; reflexivity].
Defined.

(** ** Runs of the write path on the concrete instance *)

(** A new key: [insert] sends the only statement. *)
Example run_insert :
  let doc := JObj [("email", JStr "a@b.com")] in
  let '(out, st) := _put "users" "u2" doc (Demo.opts_for doc) Demo.w0 in
  option_map fst out = Some (repeat st_ok 8) /\
  queries st =
  [{| q_origin := ByInsert;
      q_sql := "INSERT INTO users (_key, _value, _etag, _mtime, email) VALUES ($1, $2, $3, $4, $5) RETURNING _id";
      q_values := [PStr "u2"; PStr (Demo.stringify doc);
                   PStr (Demo.hex32 (Demo.crc32 (Demo.stringify doc)));
                   PNum 1500; PStr "a@b.com"] |}].
Proof. vm_compute. split; reflexivity. Qed.

(** A stored key with the expected etag: [update] sends the only statement
    and the undeclared-in-document fields are set to [NULL]. *)
Example run_update :
  let doc := JObj [("email", JStr "c@d.com")] in
  let opts := {| opts_etag := Some "T1"; opts__value := Demo.stringify doc;
                 opts_headers := None |} in
  let '(out, st) := _put "users" "u1" doc opts Demo.w0 in
  option_map fst out = Some (repeat st_ok 8) /\
  queries st =
  [{| q_origin := ByUpdate;
      q_sql := "UPDATE users SET _value=$1, _etag=$2, email=$3, age=NULL, admin=NULL, _mtime=1500 WHERE _key='u1'";
      q_values := [PStr (Demo.stringify doc);
                   PStr (Demo.hex32 (Demo.crc32 (Demo.stringify doc)));
                   PStr "c@d.com"] |}].
Proof. vm_compute. split; reflexivity. Qed.

(** A stale etag: the pipeline stops at [checkEtag] and nothing is sent. *)
Example run_conflict :
  let doc := JObj [("email", JStr "c@d.com")] in
  let opts := {| opts_etag := Some "T0"; opts__value := Demo.stringify doc;
                 opts_headers := None |} in
  let '(out, st) := _put "users" "u1" doc opts Demo.w0 in
  out = Some ([st_ok; st_ok; st_ok; st_fail; st_waiting; st_waiting; st_waiting;
               st_waiting], Err (ExternalError "EtagConflictError")) /\
  queries st = [].
Proof. vm_compute. split; reflexivity. Qed.

(** A rejecting pre-chain hook: the pipeline stops at [runPreChain]. *)
Example run_rejected :
  let doc := JObj [("tag", JStr "x")] in
  let '(out, st) := _put "locked" "k1" doc (Demo.opts_for doc) Demo.w0 in
  out = Some ([st_ok; st_ok; st_fail; st_waiting; st_waiting; st_waiting; st_waiting;
               st_waiting], Err (ExternalError "rejected")) /\
  queries st = [].
Proof. vm_compute. split; reflexivity. Qed.

(** A pre-chain that stamps the document: the statement binds the
    serialization of the stamped document, not the one the caller gave. *)
Example run_stamped :
  let doc := JObj [("tag", JStr "x")] in
  let '(out, st) := _put "notes" "k2" doc (Demo.opts_for doc) Demo.w0 in
  map (fun q => nth 1 (q_values q) PUndefined) (queries st)
  = [PStr (Demo.stringify (JObj [("tag", JStr "x"); ("stamped", JBool true)]))].
Proof. vm_compute. reflexivity. Qed.

(** The CRC-32 of the instance on the usual check string. *)
Example crc32_check : Demo.hex32 (Demo.crc32 "123456789") = "CBF43926".
Proof. vm_compute. reflexivity. Qed.

(** * Further properties *)

(** ** The projector, field by field *)

Lemma store_opt_twice ndx k acc o :
  store_opt (store_opt ndx k acc) k o
  = store_opt ndx k (match o with Some s => Some s | None => acc end).
Proof.
  destruct o as [s|]; simpl; auto.
  destruct acc as [a|]; simpl; auto. apply obj_set_set.
Qed.







(** ** The projector, document by document *)

Lemma obj_get_In {V : Type} (o : list (string * V)) k v :
  obj_get o k = Some v -> In (k, v) o.
Proof.
  induction o as [|[k' v'] o IH]; simpl; [discriminate|].
  destruct (String.eqb k' k) eqn:E.
  - apply String.eqb_eq in E. intros H. inversion H; subst. now left.
  - intros H. right. auto.
Qed.

Lemma declared_schema_key (schema : Schema) k :
  forallb (fun e => existsb (String.eqb (type (snd e))) declared_types) schema = true ->
  In k (obj_keys schema) ->
  exists d, obj_get schema k = Some d /\ String.eqb "object" (type d) = false.
Proof.
  intros Hall Hk. destruct (obj_get_keys schema k Hk) as [d Hd].
  exists d. split; auto. apply declared_type_not_object.
  rewrite forallb_forall in Hall. apply (Hall (k, d)). now apply obj_get_In.
Qed.






(** ** The names in a projection *)

Lemma existsb_eqb_In k (l : list string) :
  existsb (String.eqb k) l = true <-> In k l.
Proof.
  rewrite existsb_exists. split.
  - intros [x [Hx E]]. apply String.eqb_eq in E. now subst.
  - intros H. exists k. split; auto. apply String.eqb_refl.
Qed.

Lemma obj_set_keys {V : Type} (o : list (string * V)) k v :
  obj_keys (obj_set o k v) =
  if existsb (String.eqb k) (obj_keys o) then obj_keys o else (obj_keys o ++ [k])%list.
Proof.
  induction o as [|[k' v'] o IH]; simpl; auto.
  rewrite (String.eqb_sym k k').
  destruct (String.eqb k' k) eqn:E; simpl; auto.
  rewrite IH. unfold obj_keys.
  destruct (existsb (String.eqb k) (map fst o)); reflexivity.
Qed.

Lemma store_opt_keys ndx k o :
  (forall x, In x (obj_keys (store_opt ndx k o)) -> x = k \/ In x (obj_keys ndx)) /\
  (NoDup (obj_keys ndx) -> NoDup (obj_keys (store_opt ndx k o))).
Proof.
  destruct o as [s|]; simpl; [|auto].
  rewrite obj_set_keys.
  destruct (existsb (String.eqb k) (obj_keys ndx)) eqn:E; [auto|].
  split.
  - intros x Hx. apply in_app_or in Hx. destruct Hx as [Hx|[<-|[]]]; auto.
  - intros Hnd. apply NoDup_app; auto.
    + constructor; [intros []|constructor].
    + intros x Hx [<-|[]].
      apply existsb_eqb_In in Hx. congruence.
Qed.

(** Whatever the value and the type, [_index] changes the projection by at
    most one assignment to the entry of its field. *)
Lemma _index_store k t : forall v ndx r ndx',
  _index k v t ndx = Ok (r, ndx') -> exists o, ndx' = store_opt ndx k o.
Proof.
  intros v. induction v as [| |b|n|s|l IHl|l] using JsVal_array_ind;
    intros ndx r ndx' H.
  - rewrite _index_undefined in H. inversion H. now exists None.
  - destruct (_index_null k t ndx) as [r0 E]. rewrite E in H. inversion H.
    now exists None.
  - rewrite (_index_scalar k (JBool b) t ndx (if b then "true" else "false")) in H
      by (now destruct b).
    inversion H. now exists (Some (if b then "true" else "false")).
  - rewrite (_index_scalar k (JNum n) t ndx (Z_toString n)) in H by reflexivity.
    inversion H. now exists (Some (Z_toString n)).
  - rewrite (_index_scalar k (JStr s) t ndx s) in H by reflexivity.
    inversion H. now exists (Some s).
  - destruct (String.eqb "object" t) eqn:Ht.
    + apply String.eqb_eq in Ht. subst t. rewrite _index_array_object in H.
      inversion H. now exists None.
    + rewrite _index_array in H by assumption.
      assert (Loop : forall acc r ndx',
                 index_each k t l (store_opt ndx k acc) = Ok (r, ndx') ->
                 exists o, ndx' = store_opt ndx k o).
      { clear H. induction IHl as [|x l Hx _ IH]; intros acc r0 ndx0 H; simpl in H.
        - inversion H. eauto.
        - destruct (_index k x t (store_opt ndx k acc)) as [[r1 ndx1]|e] eqn:E;
            [|discriminate].
          destruct (Hx _ _ _ E) as [o Ho]. subst ndx1.
          rewrite store_opt_twice in H. eapply IH; eauto. }
      apply (Loop None _ _ H).
  - simpl in H. destruct (String.eqb "object" t); simpl in H; [|discriminate].
    inversion H. now exists None.
Qed.

Lemma index_fields_keys schema object : forall keys ndx ndx',
  index_fields schema keys object ndx = Ok ndx' ->
  (forall x, In x (obj_keys ndx') -> In x keys \/ In x (obj_keys ndx)) /\
  (NoDup (obj_keys ndx) -> NoDup (obj_keys ndx')).
Proof.
  induction keys as [|a keys IH]; intros ndx ndx' H; simpl in H.
  - inversion H; subst. auto.
  - destruct (get_prop object a) as [v|e]; [|discriminate].
    destruct (obj_get schema a) as [d|]; [|discriminate].
    destruct (_index a v (type d) ndx) as [[r ndx1]|e] eqn:E; [|discriminate].
    destruct (_index_store _ _ _ _ _ _ E) as [o ->].
    destruct (IH _ _ H) as [H1 H2].
    destruct (store_opt_keys ndx a o) as [S1 S2].
    split.
    + intros x Hx. destruct (H1 x Hx) as [Hin|Hin]; [left; now right|].
      destruct (S1 x Hin) as [->|Hin']; [left; now left|now right].
    + auto.
Qed.

(** X4.  A projection that [_indexObject] returns has entries only for
    fields the schema declares, and one entry at most per field; this holds
    for every document and every schema. *)
Theorem X4_projection_names_are_declared (schema : Schema) (object : JsVal)
  (ndx : Projection) :
  _indexObject schema object = Ok ndx ->
  incl (obj_keys ndx) (obj_keys schema) /\ NoDup (obj_keys ndx).
Proof.
  unfold _indexObject. destruct (assert_object object "object"); [|discriminate].
  destruct (Nat.eqb (List.length (obj_keys schema)) 0).
  - intros H. inversion H. split; [intros x []|constructor].
  - intros H. destruct (index_fields_keys _ _ _ _ _ H) as [H1 H2]. split.
    + intros x Hx. destruct (H1 x Hx) as [Hin|[]]; auto.
    + apply H2. constructor.
Qed.

Lemma X4_projection_names_are_declared_witness :
  incl (obj_keys [("age", "2"); ("admin", "false")]) (obj_keys Demo.users_schema) /\
  NoDup (obj_keys [("age", "2"); ("admin", "false")]).
Proof.
  apply (X4_projection_names_are_declared Demo.users_schema
           (JObj [("age", JArr [JNum 1; JNum 2]); ("admin", JBool false);
                  ("other", JStr "x")])).
  reflexivity.
Defined.

(** ** The statements, placeholder by placeholder *)

Lemma obj_get_NoDup {V : Type} (o : list (string * V)) k v :
  NoDup (obj_keys o) -> In (k, v) o -> obj_get o k = Some v.
Proof.
  induction o as [|[k' v'] o IH]; simpl; [tauto|].
  intros Hnd [H|H].
  - inversion H; subst. now rewrite String.eqb_refl.
  - inversion Hnd; subst. destruct (String.eqb k' k) eqn:E; auto.
    apply String.eqb_eq in E. subst k'.
    exfalso. apply H2. change k with (fst (k, v)). now apply in_map.
Qed.

Lemma insert_fields_characterised ndx keys keyStr valStr values :
  insert_fields ndx keys (keyStr, valStr, values) =
  (keyStr ++ join (map (fun k => ", " ++ k) keys),
   valStr ++ join (map (fun i => ", $" ++ nat_toString i)
                       (seq (S (List.length values)) (List.length keys))),
   (values ++ map (fun k => param_of (index_get ndx k)) keys)%list).
Proof.
  revert keyStr valStr values.
  induction keys as [|k keys IH]; intros keyStr valStr values.
  - simpl. now rewrite !string_app_nil_r, app_nil_r.
  - cbn [insert_fields]. rewrite IH. cbn [map seq List.length].
    rewrite !join_cons, !string_app_assoc, <- app_assoc, length_app.
    cbn [List.length app]. now rewrite Nat.add_1_r.
Qed.

Section MoreFacts.

Context {World : Type} {ext : Externals World}.

Local Abbreviation Req := (Req World).
Local Abbreviation St := (St World).

(** X5.  The statement of [insert] names one column per entry of the
    projection, in the order of the projection, after the four base
    columns; the placeholders are numbered 1 to 4 for the base values and
    5, 6, ... for the entries; and the bound values are the key, the
    serialized value, the etag, the time and then the strings of the
    entries, so that the value of the [j]-th entry is bound at the position
    its placeholder names. *)
Theorem X5_insert_statement_is_aligned (req : Req) (ndx : Projection) (w : World) :
  NoDup (obj_keys ndx) ->
  insert_statement req ndx w =
  ("INSERT INTO " ++ name (bucket req) ++ " (_key, _value, _etag, _mtime"
     ++ join (map (fun k => ", " ++ k) (obj_keys ndx))
     ++ ") VALUES ($1, $2, $3, $4"
     ++ join (map (fun i => ", $" ++ nat_toString i) (seq 5 (List.length ndx)))
     ++ ") RETURNING _id",
   ([PStr (key req); PStr (_value req); PStr (_createEtag req); PNum (_now w)]
      ++ map (fun e => PStr (snd e)) ndx)%list) /\
  (forall j k s, nth_error ndx j = Some (k, s) ->
                 nth_error (seq 5 (List.length ndx)) j = Some (5 + j) /\
                 nth_error (snd (insert_statement req ndx w)) (5 + j - 1) = Some (PStr s)).
Proof.
  intros Hnd.
  assert (Hv : map (fun k => param_of (index_get ndx k)) (obj_keys ndx)
               = map (fun e => PStr (snd e)) ndx).
  { unfold obj_keys. rewrite map_map. apply map_ext_in. intros [k s] Hin.
    unfold index_get. simpl. now rewrite (obj_get_NoDup ndx k s Hnd Hin). }
  assert (E : insert_statement req ndx w =
    ("INSERT INTO " ++ name (bucket req) ++ " (_key, _value, _etag, _mtime"
       ++ join (map (fun k => ", " ++ k) (obj_keys ndx))
       ++ ") VALUES ($1, $2, $3, $4"
       ++ join (map (fun i => ", $" ++ nat_toString i) (seq 5 (List.length ndx)))
       ++ ") RETURNING _id",
     ([PStr (key req); PStr (_value req); PStr (_createEtag req); PNum (_now w)]
        ++ map (fun e => PStr (snd e)) ndx)%list)).
  { unfold insert_statement. rewrite insert_fields_characterised.
    cbn [List.length]. unfold obj_keys at 2. rewrite length_map, Hv. reflexivity. }
  split; [exact E|].
  intros j k s Hj. rewrite E. cbn [snd].
  assert (Hlt : j < List.length ndx) by (apply nth_error_Some; congruence).
  split.
  - rewrite nth_error_seq. destruct (Nat.ltb_spec j (List.length ndx)); [reflexivity|lia].
  - rewrite nth_error_app2 by (cbn [List.length]; lia).
    cbn [List.length]. replace (5 + j - 1 - 4) with j by lia.
    rewrite nth_error_map, Hj. reflexivity.
Qed.

Lemma update_fields_aligned (schema : Schema) ndx :
  forallb (fun e => existsb (String.eqb (type (snd e))) declared_types) schema = true ->
  forall keys extraStr vals,
    incl keys (obj_keys schema) ->
    exists segs extra,
      update_fields schema (Some ndx) keys (extraStr, vals)
      = Ok (extraStr ++ join segs, (vals ++ extra)%list) /\
      List.length extra
      = List.length (filter (fun k => truthy (index_get ndx k)) keys) /\
      forall tail,
        Forall2 (aligned schema ndx ((vals ++ extra) ++ tail)%list) keys segs.
Proof.
  intros Hall. induction keys as [|k keys IH]; intros extraStr vals Hin.
  - exists [], []. simpl. rewrite string_app_nil_r, app_nil_r. auto.
  - assert (Hk : In k (obj_keys schema)) by (apply Hin; now left).
    assert (Hin' : incl keys (obj_keys schema))
      by (intros x Hx; apply Hin; now right).
    destruct (declared_schema_key schema k Hall Hk) as [d [Hd _]].
    assert (Hdecl : existsb (String.eqb (type d)) declared_types = true).
    { rewrite forallb_forall in Hall. apply (Hall (k, d)). now apply obj_get_In. }
    rewrite update_fields_cons. cbn [filter].
    destruct (truthy (index_get ndx k)) eqn:Ht.
    + rewrite Hd.
      assert (Hs : exists s, obj_get ndx k = Some s).
      { unfold index_get in Ht. destruct (obj_get ndx k); [eauto|discriminate]. }
      destruct Hs as [s Hs]. rewrite Hs.
      assert (Hp : exists p, update_param (type d) s = Some p).
      { unfold declared_types in Hdecl. simpl in Hdecl. unfold update_param.
        destruct (String.eqb (type d) "boolean"); [eauto|].
        destruct (String.eqb (type d) "number"); [eauto|].
        destruct (String.eqb (type d) "string"); [eauto|discriminate]. }
      destruct Hp as [p Hp]. rewrite Hp.
      destruct (IH ((extraStr ++ ", " ++ k ++ "=") ++ "$"
                      ++ nat_toString (List.length vals + 1))
                   (vals ++ [p])%list Hin') as [segs [extra [E [L F]]]].
      exists ((", " ++ k ++ "=" ++ "$" ++ nat_toString (List.length vals + 1)) :: segs),
        (p :: extra).
      split; [|split].
      * rewrite E. f_equal. f_equal.
        -- rewrite join_cons. now rewrite !string_app_assoc.
        -- now rewrite <- app_assoc.
      * simpl. now rewrite L.
      * intros tail. constructor.
        -- unfold aligned. rewrite Ht.
           exists (List.length vals + 1), s. unfold type_of. rewrite Hd, Hp.
           repeat split; auto; try lia; try discriminate.
           replace (List.length vals + 1 - 1) with (List.length vals) by lia.
           rewrite <- app_assoc, nth_error_app2 by lia.
           now rewrite Nat.sub_diag.
        -- specialize (F tail).
           replace ((vals ++ p :: extra) ++ tail)%list
             with (((vals ++ [p]) ++ extra) ++ tail)%list; auto.
           now rewrite <- (app_assoc vals [p] extra).
    + destruct (IH ((extraStr ++ ", " ++ k ++ "=") ++ "NULL") vals Hin')
        as [segs [extra [E [L F]]]].
      exists ((", " ++ k ++ "=" ++ "NULL") :: segs), extra.
      split; [|split]; auto.
      * rewrite E. f_equal. f_equal. rewrite join_cons.
        now rewrite !string_app_assoc.
      * intros tail. constructor; auto. unfold aligned. now rewrite Ht.
Qed.

Lemma update_param_declared t s :
  (exists p, update_param t s = Some p) <-> existsb (String.eqb t) declared_types = true.
Proof.
  unfold update_param, declared_types. simpl.
  destruct (String.eqb t "boolean"); simpl; [split; eauto|].
  destruct (String.eqb t "string"); simpl.
  - destruct (String.eqb t "number"); split; eauto.
  - destruct (String.eqb t "number"); simpl; split; eauto.
    + intros [p H]. discriminate.
    + discriminate.
Qed.

Lemma update_fields_counts (schema : Schema) ndx :
  forall keys extraStr vals,
    incl keys (obj_keys schema) ->
    exists segs extra,
      update_fields schema (Some ndx) keys (extraStr, vals)
      = Ok (extraStr ++ join segs, (vals ++ extra)%list) /\
      Forall2 (assignment_of ndx) keys segs /\
      List.length extra = List.length (filter (bound_here schema ndx) keys).
Proof.
  induction keys as [|k keys IH]; intros extraStr vals Hin.
  - exists [], []. simpl. rewrite string_app_nil_r, app_nil_r. auto.
  - assert (Hk : In k (obj_keys schema)) by (apply Hin; now left).
    assert (Hin' : incl keys (obj_keys schema))
      by (intros x Hx; apply Hin; now right).
    destruct (obj_get_keys schema k Hk) as [d Hd].
    rewrite update_fields_cons. cbn [filter]. unfold bound_here at 1.
    unfold type_of at 1. rewrite Hd.
    destruct (truthy (index_get ndx k)) eqn:Ht; cbn [andb].
    + set (s := match obj_get ndx k with Some s => s | None => "" end).
      pose proof (update_param_declared (type d) s) as Hdecl.
      destruct (update_param (type d) s) as [p|] eqn:Hp.
      * destruct (IH ((extraStr ++ ", " ++ k ++ "=") ++ "$"
                        ++ nat_toString (List.length vals + 1))
                     (vals ++ [p])%list Hin') as [segs [extra [E [F L]]]].
        exists ((", " ++ k ++ "=" ++ "$" ++ nat_toString (List.length vals + 1)) :: segs),
          (p :: extra).
        rewrite (proj1 Hdecl) by eauto.
        split; [|split].
        -- rewrite E. f_equal. f_equal.
           ++ rewrite join_cons. now rewrite !string_app_assoc.
           ++ now rewrite <- app_assoc.
        -- constructor; auto. exists ("$" ++ nat_toString (List.length vals + 1)).
           repeat split; [congruence|eauto].
        -- simpl. now rewrite L.
      * destruct (IH ((extraStr ++ ", " ++ k ++ "=") ++ "$"
                        ++ nat_toString (List.length vals + 1))
                     vals Hin') as [segs [extra [E [F L]]]].
        exists ((", " ++ k ++ "=" ++ "$" ++ nat_toString (List.length vals + 1)) :: segs),
          extra.
        destruct (existsb (String.eqb (type d)) declared_types) eqn:Ed.
        { destruct (proj2 Hdecl eq_refl) as [p Hp']. discriminate. }
        split; [|split]; auto.
        -- rewrite E. f_equal. f_equal.
           rewrite join_cons. now rewrite !string_app_assoc.
        -- constructor; auto. exists ("$" ++ nat_toString (List.length vals + 1)).
           repeat split; [congruence|eauto].
    + destruct (IH ((extraStr ++ ", " ++ k ++ "=") ++ "NULL") vals Hin')
        as [segs [extra [E [F L]]]].
      exists ((", " ++ k ++ "=" ++ "NULL") :: segs), extra.
      split; [|split]; auto.
      * rewrite E. f_equal. f_equal. rewrite join_cons.
        now rewrite !string_app_assoc.
      * constructor; auto. exists "NULL". repeat split. congruence.
Qed.

Lemma filter_length_lt {A : Type} (f g : A -> bool) (l : list A) (a : A) :
  (forall x, f x = true -> g x = true) ->
  In a l -> g a = true -> f a = false ->
  List.length (filter f l) < List.length (filter g l).
Proof.
  intros Hfg. induction l as [|x l IH]; simpl; [tauto|].
  assert (Hle : List.length (filter f l) <= List.length (filter g l)).
  { clear IH. induction l as [|y l IHl]; simpl; auto.
    destruct (f y) eqn:Ef.
    - rewrite (Hfg y Ef). simpl. lia.
    - destruct (g y); simpl; lia. }
  intros [->|Hin] Hg Hf.
  - rewrite Hg, Hf. simpl. lia.
  - specialize (IH Hin Hg Hf). destruct (f x) eqn:Ef.
    + rewrite (Hfg x Ef). simpl. lia.
    + destruct (g x); simpl; lia.
Qed.

(** X6.  When every type of the schema is one of boolean, number and
    string and no declared field is named like a member of
    [Object.prototype], the placeholders of the update statement match its
    values:
    the statement binds two base values and one value per field whose
    projected string is truthy, and the assignment of such a field is
    [k=$n] where the [n]-th bound value is the string of the field encoded
    for its declared type; every other declared field is assigned [NULL]. *)
Theorem X6_update_placeholders_are_aligned (req : Req) (schema : Schema)
  (ndx : Projection) (w : World) :
  forallb (fun e => existsb (String.eqb (type (snd e))) declared_types) schema = true ->
  own_names schema = true ->
  index req = Some ndx ->
  exists segs extra,
    update_statement req schema w =
    Ok ("UPDATE " ++ name (bucket req) ++ " SET _value=$1, _etag=$2" ++ join segs
          ++ ", _mtime=" ++ Z_toString (_now w)
          ++ " WHERE _key='" ++ key req ++ "'",
        PStr (_value req) :: PStr (_createEtag req) :: extra) /\
    List.length extra
    = List.length (filter (fun k => truthy (index_get ndx k)) (obj_keys schema)) /\
    Forall2 (aligned schema ndx (PStr (_value req) :: PStr (_createEtag req) :: extra))
            (obj_keys schema) segs.
Proof.
  intros Hall _ Hi. unfold update_statement. rewrite Hi.
  destruct (update_fields_aligned schema ndx Hall (obj_keys schema) ""
              [PStr (_value req); PStr (_createEtag req)] (incl_refl _))
    as [segs [extra [E [L F]]]].
  rewrite E. exists segs, extra. split; [reflexivity|]. split; [exact L|].
  specialize (F []). rewrite app_nil_r in F. exact F.
Qed.

(** X7.  A declared field whose type is none of boolean, number and string
    and whose projected string is truthy gets a placeholder but no value:
    [update] still builds the statement, with an assignment for every
    declared field, yet it binds fewer values than the statement has
    placeholders. *)
Theorem X7_undeclared_type_leaves_a_placeholder_unbound (req : Req) (schema : Schema)
  (ndx : Projection) (w : World) (k : string) :
  index req = Some ndx ->
  In k (obj_keys schema) ->
  truthy (index_get ndx k) = true ->
  existsb (String.eqb (type_of schema k)) declared_types = false ->
  exists segs extra,
    update_statement req schema w =
    Ok ("UPDATE " ++ name (bucket req) ++ " SET _value=$1, _etag=$2" ++ join segs
          ++ ", _mtime=" ++ Z_toString (_now w)
          ++ " WHERE _key='" ++ key req ++ "'",
        PStr (_value req) :: PStr (_createEtag req) :: extra) /\
    Forall2 (assignment_of ndx) (obj_keys schema) segs /\
    List.length extra
    < List.length (filter (fun k => truthy (index_get ndx k)) (obj_keys schema)).
Proof.
  intros Hi Hk Ht Hu. unfold update_statement. rewrite Hi.
  destruct (update_fields_counts schema ndx (obj_keys schema) ""
              [PStr (_value req); PStr (_createEtag req)] (incl_refl _))
    as [segs [extra [E [F L]]]].
  rewrite E. exists segs, extra. split; [reflexivity|]. split; [exact F|].
  rewrite L. apply (filter_length_lt _ _ _ k); auto.
  - unfold bound_here. intros x Hx. now apply andb_prop in Hx.
  - unfold bound_here. now rewrite Ht, Hu.
Qed.

Lemma Z_toString_nonempty n : Z_toString n <> "".
Proof.
  intros E. pose proof (parseInt_Z_toString n) as H. rewrite E in H. discriminate.
Qed.

(** X8.  A scalar of the declared type of its field, a number being a safe
    integer, survives the trip through the projection and the update
    encoding: when the projection holds the string of the scalar, [update]
    writes a placeholder for the field and binds [TRUE] or [FALSE] for a
    boolean, the integer itself for a number and the string itself for a
    string.  In particular [false] and
    [0] are bound, not turned into [NULL]; only the empty string is. *)
Theorem X8_typed_scalar_round_trip (schema : Schema) (ndx : Projection) (k : string)
  (d : IndexDef) (v : JsVal) (s extraStr : string) (vals : list Param) :
  obj_get schema k = Some d ->
  typeof v = type d ->
  scalar_toString v = Some s ->
  safe_scalar v = true ->
  empty_string v = false ->
  obj_get ndx k = Some s ->
  truthy (index_get ndx k) = true /\
  update_fields schema (Some ndx) [k] (extraStr, vals)
  = Ok ((extraStr ++ ", " ++ k ++ "=") ++ "$" ++ nat_toString (List.length vals + 1),
        (vals ++ [typed_param v])%list).
Proof.
  intros Hd Ht Hs _ He Hg.
  assert (Htr : truthy (index_get ndx k) = true).
  { unfold index_get. rewrite Hg. simpl.
    destruct v as [| |[]|n|x|l|l]; simpl in Hs; inversion Hs; subst; auto.
    - destruct (String.eqb (Z_toString n) "") eqn:E; auto.
      apply String.eqb_eq in E. now apply Z_toString_nonempty in E.
    - simpl in He. now rewrite He. }
  split; [exact Htr|].
  rewrite update_fields_cons, Htr, Hd, Hg, <- Ht.
  destruct v as [| |[]|n|x|l|l]; simpl in Hs; inversion Hs; subst; try reflexivity.
  cbn [typeof]. unfold update_param. simpl.
  now rewrite parseInt_Z_toString.
Qed.

(** X9.  When [insert] runs and the database answers with rows, the [_id]
    of the first row becomes the [_id] of the document, in place of any
    [_id] the document came with, and the other fields of the document read
    as before; when the database answers with no row the step fails after
    the statement was sent; an error of the database is passed on as it
    is. *)
Theorem X9_insert_stores_the_generated_id (req : Req) (st : St) (ndx : Projection)
  (fields : list (string * JsVal)) (sql : string) (values : list Param) :
  truthy (previous req) = false ->
  index req = Some ndx ->
  value req = JObj fields ->
  insert_statement req ndx (world st) = (sql, values) ->
  let sent := (queries st ++ [{| q_origin := ByInsert; q_sql := sql;
                                 q_values := values |}])%list in
  (forall row rows id w',
      pg_query sql values (world st) = (Ok (row :: rows), w') ->
      get_prop row "_id" = Ok id ->
      exists req',
        insert req st = (Ok req', {| world := w'; queries := sent |}) /\
        get_prop (value req') "_id" = Ok id /\
        (forall k, k <> "_id" -> get_prop (value req') k = get_prop (value req) k) /\
        key req' = key req /\ _value req' = _value req /\ index req' = index req) /\
  (forall w',
      pg_query sql values (world st) = (Ok [], w') ->
      exists e, insert req st = (Err e, {| world := w'; queries := sent |})) /\
  (forall err w',
      pg_query sql values (world st) = (Err err, w') ->
      insert req st = (Err err, {| world := w'; queries := sent |})).
Proof.
  intros Hp Hi Hv Hs sent. unfold insert. rewrite Hp, Hi, Hs. unfold query.
  split; [|split].
  - intros row rows id w' Hq Hid. rewrite Hq. cbn [nth]. rewrite Hid, Hv.
    cbn [set__id]. eexists. split; [reflexivity|]. cbn [value key _value index].
    split; [|split; [|auto]].
    + simpl. now rewrite obj_get_set_same.
    + intros k Hk. simpl. now rewrite obj_get_set_other.
  - intros w' Hq. rewrite Hq. cbn [nth get_prop]. eauto.
  - intros err w' Hq. now rewrite Hq.
Qed.

(** X10.  The modification time [_now()] is the millisecond nearest to the
    microsecond clock, a tie going up, and it never runs backwards when the
    clock does not. *)
Theorem X10_now_is_the_nearest_millisecond (w1 w2 : World) :
  (1000 * _now w1 - 500 <= microtime_now w1 < 1000 * _now w1 + 500)%Z /\
  ((microtime_now w1 <= microtime_now w2)%Z -> (_now w1 <= _now w2)%Z).
Proof.
  unfold _now, round_div1000. split.
  - pose proof (Z.div_mod (microtime_now w1 + 500) 1000 ltac:(lia)) as H.
    pose proof (Z.mod_pos_bound (microtime_now w1 + 500) 1000 ltac:(lia)) as B.
    lia.
  - intros H. apply Z.div_le_mono; lia.
Qed.

Lemma insert_keeps (req req' : Req) (st st' : St) :
  insert req st = (Ok req', st') ->
  key req' = key req /\ index req' = index req /\ bucket req' = bucket req /\
  previous req' = previous req /\ _value req' = _value req.
Proof.
  unfold insert. destruct (truthy (previous req)).
  - intros H. inversion H; subst. auto.
  - destruct (index req) as [ndx|]; [|discriminate].
    destruct (insert_statement req ndx (world st)) as [sql values].
    destruct (query ByInsert sql values st) as [[rows|e] s1]; [|discriminate].
    destruct (get_prop (nth 0 rows JUndefined) "_id") as [id|e]; [|discriminate].
    destruct (set__id (value req) id) as [v|e]; [|discriminate].
    intros H. inversion H; subst. simpl. auto.
Qed.

Lemma update_keeps (req req' : Req) (st st' : St) :
  update req st = (Ok req', st') -> req' = req.
Proof.
  unfold update. destruct (negb (truthy (previous req))).
  - intros H. now inversion H.
  - destruct (bucket_index (bucket req)) as [schema|]; [|discriminate].
    destruct (update_statement req schema (world st)) as [[sql vals]|e]; [|discriminate].
    destruct (query ByUpdate sql vals st) as [[rows|e] s1]; [|discriminate].
    intros H. now inversion H.
Qed.

(** X11.  When a non-empty pre-chain succeeds, what is written is what the
    hooks left: from [runPreChain] to [update], provided [checkEtag] leaves
    the request alone, every statement sent binds the serialization of the
    value in the cookie and the etag of that serialization, and after a
    successful run the projection is the one of that value and the key the
    one in the cookie. *)
Theorem X11_hooks_decide_what_is_written (req : Req) (st : St) hooks hsts cookie w'
  sts r st' :
  pre (bucket req) = Some hooks -> hooks <> [] ->
  vasync_pipeline hooks (cookie_of req) (world st) = (hsts, Ok cookie, w') ->
  (forall (r1 r2 : Req) w1 w2, checkEtag r1 w1 = (Ok r2, w2) -> r2 = r1) ->
  vasync_pipeline [runPreChain; common checkEtag; indexObject; insert; update] req st
  = (sts, r, st') ->
  (forall q, In q (queries st') ->
             In q (queries st) \/
             (In (PStr (JSON_stringify (cookie_value cookie))) (q_values q) /\
              In (PStr (hex32 (crc32 (JSON_stringify (cookie_value cookie)))))
                 (q_values q))) /\
  (forall req', r = Ok req' ->
                exists schema ndx,
                  bucket_index (bucket req) = Some schema /\
                  _indexObject schema (cookie_value cookie) = Ok ndx /\
                  index req' = Some ndx /\ key req' = cookie_key cookie).
Proof.
  intros Hp Hne Hh Hcheck H.
  assert (Hrun : runPreChain req st
                 = (Ok (after_pre_chain req cookie),
                    {| world := w'; queries := queries st |})).
  { unfold runPreChain. rewrite Hp. destruct hooks as [|h hooks]; [congruence|].
    cbn [List.length Nat.eqb]. now rewrite Hh. }
  rewrite step_pipeline_cons, Hrun, step_pipeline_cons in H.
  pose proof (common_queries checkEtag (after_pre_chain req cookie)
                {| world := w'; queries := queries st |}) as Q1.
  destruct (common checkEtag (after_pre_chain req cookie)
              {| world := w'; queries := queries st |})
    as [[req1|e1] s1] eqn:E1; simpl in Q1.
  2:{ inversion H; subst. split; [intros q Hq; left; congruence|discriminate]. }
  assert (R1 : req1 = after_pre_chain req cookie).
  { unfold common in E1. simpl in E1.
    destruct (checkEtag (after_pre_chain req cookie) w') as [r0 w0] eqn:E.
    inversion E1; subst. eapply Hcheck; eauto. }
  subst req1.
  rewrite step_pipeline_cons in H.
  pose proof (indexObject_state (after_pre_chain req cookie) s1) as I2.
  pose proof (indexObject_ok (after_pre_chain req cookie)) as O2.
  destruct (indexObject (after_pre_chain req cookie) s1)
    as [[req2|e2] s2] eqn:E2; simpl in I2; subst s2.
  2:{ inversion H; subst. split; [intros q Hq; left; congruence|discriminate]. }
  destruct (O2 req2 s1) as [schema [ndx [Hb [Hi [Hx [_ V2]]]]]]; [now rewrite E2|].
  assert (K2 : key req2 = cookie_key cookie /\ bucket req2 = bucket req).
  { unfold indexObject in E2.
    destruct (bucket_index (bucket (after_pre_chain req cookie))); [|discriminate].
    destruct (_indexObject s (value (after_pre_chain req cookie)));
      inversion E2; subst. auto. }
  destruct K2 as [K2 B2].
  destruct (insert_then_update req2 s1 ndx schema Hi Hb)
    as [stsIU [rIU [sIU [q' [EIU [HqIU [_ [Hv He]]]]]]]].
  rewrite EIU in H. inversion H; subst. split.
  - intros q Hq. rewrite HqIU, Q1 in Hq. apply in_app_or in Hq.
    destruct Hq as [Hq|[<-|[]]]; [now left|right].
    unfold _createEtag in He. rewrite V2 in Hv, He. auto.
  - intros req' ->. exists schema, ndx. rewrite <- B2.
    split; [exact Hb|]. split; [exact Hx|].
    rewrite step_pipeline_cons in EIU.
    destruct (insert req2 s1) as [[req3|e3] s3] eqn:E3; [|discriminate].
    destruct (insert_keeps _ _ _ _ E3) as [K3 [I3 _]].
    rewrite step_pipeline_cons in EIU.
    destruct (update req3 s3) as [[req4|e4] s4] eqn:E4; [|discriminate].
    apply update_keeps in E4. subst req4.
    inversion EIU; subst. split; congruence.
Qed.

End MoreFacts.

(** ** lib/app.js *)

Lemma bind_ok {A B : Type} (r : Res A) (f : A -> Res B) b :
  bind r f = Ok b -> exists a, r = Ok a /\ f a = Ok b.
Proof. destruct r as [a|e]; simpl; [eauto|discriminate]. Qed.

Lemma set_prop_other o k v o' k0 :
  set_prop o k v = Ok o' -> k0 <> k -> get_prop o' k0 = get_prop o k0.
Proof.
  destruct o as [| |b|n|s|l|l]; simpl; intros H Hk; inversion H; subst; auto.
  simpl. now rewrite obj_get_set_other.
Qed.

Lemma get_prop_truthy_object o k v :
  get_prop o k = Ok v -> truthy v = true -> k <> "length" ->
  (forall i, k <> nat_toString i) ->
  exists fields, o = JObj fields.
Proof.
  destruct o as [| |b|n|s|l|l]; simpl; intros H Ht Hk Hi; try discriminate;
    try (inversion H; subst; discriminate).
  - destruct (String.eqb k "length") eqn:E.
    + apply String.eqb_eq in E. congruence.
    + destruct (find (fun i => String.eqb (nat_toString i) k) (seq 0 (List.length l)))
        as [i|] eqn:F.
      * apply find_some in F. destruct F as [_ F]. apply String.eqb_eq in F.
        exfalso. now apply (Hi i).
      * inversion H; subst. discriminate.
  - eauto.
Qed.

Lemma not_an_index k :
  NilZero.uint_of_string k = None -> forall i, k <> nat_toString i.
Proof.
  intros H i E. subst k. unfold nat_toString in H.
  destruct (NilZero.usu_gen (Nat.to_uint i)) as [E|E]; congruence.
Qed.

Lemma get_prop_object fields k : get_prop (JObj fields) k = Ok (field fields k).
Proof. reflexivity. Qed.

Lemma set_prop_object fields k v :
  set_prop (JObj fields) k v = Ok (JObj (obj_set fields k v)).
Proof. reflexivity. Qed.

Lemma field_set_same fields k v : field (obj_set fields k v) k = v.
Proof. unfold field. now rewrite obj_get_set_same. Qed.

Lemma field_set_other fields k k0 v :
  k0 <> k -> field (obj_set fields k v) k0 = field fields k0.
Proof. intros H. unfold field. now rewrite obj_get_set_other. Qed.

Lemma set_prop_back o k v fields :
  set_prop o k v = Ok (JObj fields) ->
  exists fields0, o = JObj fields0 /\ fields = obj_set fields0 k v.
Proof.
  destruct o as [| |b|n|s|l|l]; simpl; intros H; inversion H; subst. eauto.
Qed.

Lemma set_prop_truthy o k v o' :
  set_prop o k v = Ok o' -> truthy o = true -> truthy o' = true.
Proof.
  destruct o as [| |b|n|s|l|l]; simpl; intros H Ht; inversion H; subst; auto.
Qed.

Section AppFacts.

Context {aext : AppExternals}.

Lemma version_state (app app1 : App) v :
  version app = (Ok v, app1) ->
  VERSION app1 = v /\ fs app1 = fs app /\ console app1 = console app.
Proof.
  unfold version. destruct (negb (truthy (VERSION app))).
  - destruct (bind _ _) as [v0|e]; intros H; inversion H; subst. simpl. auto.
  - intros H. inversion H; subst. auto.
Qed.

Lemma version_again (app app1 : App) v :
  version app = (Ok v, app1) -> version app1 = (Ok v, app1).
Proof.
  unfold version at 1. destruct (negb (truthy (VERSION app))) eqn:Ev.
  - destruct (bind _ _) as [v0|e] eqn:Er; intros H; inversion H; subst.
    unfold version. cbn [VERSION fs console].
    destruct (negb (truthy v)); [|reflexivity].
    now rewrite Er.
  - intros H. inversion H; subst. unfold version. now rewrite Ev.
Qed.


(** X12.  [version()] reads the package file once: after a call that
    returned a truthy version, every later call returns that same version
    and leaves the state alone, whatever the file system holds by then.
    (A falsy version is not kept: [VERSION] stays falsy and the file is
    read again.) *)
Theorem X12_version_is_read_once (app app1 : App) (v : JsVal) :
  version app = (Ok v, app1) ->
  truthy v = true ->
  VERSION app1 = v /\
  forall fs' console',
    version {| VERSION := VERSION app1; fs := fs'; console := console' |}
    = (Ok v, {| VERSION := VERSION app1; fs := fs'; console := console' |}).
Proof.
  intros H Ht. destruct (version_state _ _ _ H) as [Hv _].
  split; [exact Hv|]. intros fs' console'. unfold version. cbn [VERSION].
  rewrite Hv, Ht. reflexivity.
Qed.

Lemma parse_config_ok file ov app fields :
  parse_config file ov app = Ok (JObj fields) ->
  exists text fields0 oport,
    fs app file = Ok text /\ JSON_parse text = Ok (JObj fields0) /\
    get_prop ov "port" = Ok oport /\
    field fields "port" = settled_port oport fields0 /\
    forall k0, k0 <> "port" -> field fields k0 = field fields0 k0.
Proof.
  unfold parse_config. intros H.
  apply bind_ok in H. destruct H as [text [Et H]].
  apply bind_ok in H. destruct H as [config [Ec H]].
  apply bind_ok in H. destruct H as [oport [Eo H]].
  unfold settled_port.
  destruct (truthy oport) eqn:To.
  - apply set_prop_back in H. destruct H as [fields0 [-> ->]].
    exists text, fields0, oport. rewrite To. repeat split; auto.
    + apply field_set_same.
    + intros k0 Hk. now apply field_set_other.
  - apply bind_ok in H. destruct H as [cport [Ep H]].
    destruct (truthy cport) eqn:Tp; cbn [negb] in H.
    + inversion H; subst config. rewrite get_prop_object in Ep. inversion Ep; subst.
      exists text, fields, oport. rewrite To, Tp. repeat split; auto.
    + apply bind_ok in H. destruct H as [cert [Ece H]].
      apply bind_ok in H. destruct H as [secure [Es H]].
      apply set_prop_back in H. destruct H as [fields0 [-> ->]].
      rewrite get_prop_object in Ep, Ece. inversion Ep; inversion Ece; subst.
      exists text, fields0, oport. rewrite To, Tp. repeat split; auto.
      * rewrite field_set_same. f_equal.
        destruct (truthy (field fields0 "certificate")).
        -- apply bind_ok in Es. destruct Es as [k [Ek Es]].
           rewrite get_prop_object in Ek. inversion Ek; inversion Es; subst.
           reflexivity.
        -- inversion Es; subst. reflexivity.
      * intros k0 Hk. now apply field_set_other.
Qed.

Lemma load_file_ok k c app fields' :
  load_file k c app = Ok (JObj fields') ->
  exists fields,
    c = JObj fields /\
    (forall k0, k0 <> k -> field fields' k0 = field fields k0) /\
    (if truthy (field fields k)
     then exists text, fs app (field fields k) = Ok text /\ field fields' k = JStr text
     else fields' = fields).
Proof.
  unfold load_file. intros H.
  apply bind_ok in H. destruct H as [path [Ep H]].
  destruct (truthy path) eqn:Tp.
  - apply bind_ok in H. destruct H as [text [Et H]].
    apply set_prop_back in H. destruct H as [fields [-> ->]].
    rewrite get_prop_object in Ep. inversion Ep; subst.
    exists fields. rewrite Tp. repeat split.
    + intros k0 Hk. now apply field_set_other.
    + exists text. split; auto. apply field_set_same.
  - inversion H; subst c. rewrite get_prop_object in Ep. inversion Ep; subst.
    exists fields'. rewrite Tp. auto.
Qed.

Lemma decode_marker_ok k fields c' :
  decode_marker k (JObj fields) = Ok c' ->
  exists marker', c' = JObj (obj_set fields "marker" marker') /\
                  (truthy (field fields "marker") = true -> truthy marker' = true).
Proof.
  unfold decode_marker. intros H.
  apply bind_ok in H. destruct H as [marker [Em H]].
  apply bind_ok in H. destruct H as [hex [Eh H]].
  apply bind_ok in H. destruct H as [text [Et H]].
  apply bind_ok in H. destruct H as [marker' [Es H]].
  rewrite get_prop_object in Em. inversion Em; subst.
  rewrite set_prop_object in H. inversion H; subst.
  exists marker'. split; auto. intros Ht. eapply set_prop_truthy; eauto.
Qed.


Lemma finish_config_ok options fields app cfg app' :
  finish_config options (JObj fields) app = (Ok cfg, app') ->
  exists cf,
    cfg = JObj cf /\
    field cf "version" = VERSION app' /\
    field cf "name" = JStr ("Moray " ++ js_String (VERSION app')) /\
    (forall k0, ~ In k0 ["dtrace"; "log"; "marker"; "name"; "version"; "postgres"] ->
                field cf k0 = field fields k0) /\
    (truthy (field fields "postgres") = true -> truthy (field cf "postgres") = true) /\
    (truthy (field fields "marker") = true -> truthy (field cf "marker") = true) /\
    fs app' = fs app /\ console app' = console app.
Proof.
  unfold finish_config. intros H.
  destruct (bind (get_prop options "dtrace") _) as [c1|e] eqn:E1; [|discriminate].
  apply bind_ok in E1. destruct E1 as [dtrace [Ed E1]].
  rewrite set_prop_object in E1. cbn [bind] in E1.
  apply bind_ok in E1. destruct E1 as [log [El E1]].
  rewrite set_prop_object in E1. cbn [bind] in E1.
  rewrite !get_prop_object in E1. cbn [bind] in E1.
  apply bind_ok in E1. destruct E1 as [u [Eu E1]].
  apply bind_ok in E1. destruct E1 as [c3 [E3 E1]].
  apply decode_marker_ok in E3. destruct E3 as [m1 [-> T1]].
  apply decode_marker_ok in E1. destruct E1 as [m2 [-> T2]].
  destruct (version app) as [[v1|e] app1] eqn:V1; [|discriminate].
  rewrite set_prop_object in H.
  pose proof (version_again _ _ _ V1) as V2. rewrite V2 in H.
  destruct (version_state _ _ _ V1) as [Hv [Hfs Hco]].
  rewrite set_prop_object in H. cbn [bind] in H. rewrite get_prop_object in H.
  cbn [bind] in H.
  inversion H as [[H0 Happ]]. subst app'. clear H.
  apply bind_ok in H0. destruct H0 as [log2 [El2 H0]].
  apply bind_ok in H0. destruct H0 as [pg' [Epg H0]].
  assert (Hcfg : cfg = JObj (obj_set
                   (obj_set
                      (obj_set
                         (obj_set
                            (obj_set (obj_set (obj_set fields "dtrace" dtrace) "log" log)
                                     "marker" m1) "marker" m2)
                         "name" (JStr ("Moray " ++ js_String v1))) "version" v1)
                   "postgres" pg')).
  { destruct (truthy _) in H0.
    - apply bind_ok in H0. destruct H0 as [u2 [_ H0]]. now inversion H0.
    - now inversion H0. }
  clear H0. eexists. split; [exact Hcfg|]. rewrite Hv.
  split; [|split; [|split; [|split; [|split]]]]; auto.
  - rewrite field_set_other by discriminate. apply field_set_same.
  - rewrite !(field_set_other _ _ "name") by discriminate. apply field_set_same.
  - intros k0 Hk. simpl in Hk.
    rewrite !field_set_other; auto; intros ->; intuition.
  - intros Ht. rewrite field_set_same.
    rewrite !(field_set_other _ _ "postgres") in Epg by discriminate.
    eapply set_prop_truthy; eauto.
  - intros Ht. rewrite !(field_set_other _ _ "marker") by discriminate.
    rewrite field_set_same. apply T2. rewrite field_set_same. apply T1.
    now rewrite !(field_set_other _ _ "marker") by discriminate.
Qed.


Lemma version_frame (app app1 : App) r :
  version app = (r, app1) -> fs app1 = fs app /\ console app1 = console app.
Proof.
  unfold version. destruct (negb (truthy (VERSION app))).
  - destruct (bind _ _) as [v0|e]; intros H; inversion H; subst; simpl; auto.
  - intros H. inversion H; subst. auto.
Qed.

Lemma finish_config_frame options c app r app' :
  finish_config options c app = (r, app') ->
  fs app' = fs app /\ console app' = console app.
Proof.
  unfold finish_config. destruct (bind (get_prop options "dtrace") _) as [c1|e].
  - destruct (version app) as [[v1|e] app1] eqn:V1.
    + destruct (version_frame _ _ _ V1) as [F1 C1].
      destruct (set_prop c1 "name" _) as [c2|e].
      * destruct (version app1) as [[v2|e] app2] eqn:V2;
          destruct (version_frame _ _ _ V2) as [F2 C2];
          intros H; inversion H; subst; split; congruence.
      * intros H; inversion H; subst. auto.
    + destruct (version_frame _ _ _ V1) as [F1 C1].
      intros H; inversion H; subst. auto.
  - intros H; inversion H; subst. auto.
Qed.

Lemma truthy_settled_port oport fields : truthy (settled_port oport fields) = true.
Proof.
  unfold settled_port. destruct (truthy oport) eqn:To; auto.
  destruct (truthy (field fields "port")) eqn:Tp; auto.
  destruct (truthy (field fields "certificate") && truthy (field fields "key"));
    reflexivity.
Qed.

(** The stages a returning [configure] went through. *)
Lemma configure_returned file options app cfg app' :
  configure file options app = (Returned cfg, app') ->
  exists o f1 f2 f3,
    get_prop options "overrides" = Ok o /\
    parse_config file (if truthy o then o else JObj []) app = Ok (JObj f1) /\
    load_file "certificate" (JObj f1) app = Ok (JObj f2) /\
    load_file "key" (JObj f2) app = Ok (JObj f3) /\
    truthy (field f3 "postgres") = true /\
    truthy (field f3 "marker") = true /\
    finish_config options (JObj f3) app = (Ok cfg, app').
Proof.
  unfold configure. intros H.
  destruct (bind (assertString "file" file) _) as [o|e] eqn:Eo; [|discriminate].
  apply bind_ok in Eo. destruct Eo as [u1 [_ Eo]].
  apply bind_ok in Eo. destruct Eo as [u2 [_ Eo]].
  destruct (parse_config file _ app) as [c1|e] eqn:E1; [|discriminate].
  destruct (load_file "certificate" c1 app) as [c2|e] eqn:E2.
  2:{ destruct (get_prop c1 "certificate"); discriminate. }
  destruct (load_file "key" c2 app) as [c3|e] eqn:E3.
  2:{ destruct (get_prop c2 "certificate"); discriminate. }
  destruct (get_prop c3 "postgres") as [pg|e] eqn:Ep; [|discriminate].
  destruct (truthy pg) eqn:Tp; cbn [negb] in H; [|discriminate].
  destruct (get_prop c3 "marker") as [mk|e] eqn:Em; [|discriminate].
  destruct (truthy mk) eqn:Tm; cbn [negb] in H; [|discriminate].
  destruct (finish_config options c3 app) as [[c4|e] app4] eqn:E4; [|discriminate].
  inversion H; subst.
  destruct (get_prop_truthy_object c3 "postgres" pg Ep Tp) as [f3 ->];
    [discriminate|apply not_an_index; reflexivity|].
  destruct (load_file_ok _ _ _ _ E3) as [f2 [-> _]].
  destruct (load_file_ok _ _ _ _ E2) as [f1 [-> _]].
  rewrite get_prop_object in Ep, Em. inversion Ep; inversion Em; subst.
  exists o, f1, f2, f3. auto 10.
Qed.

(** X13.  A configuration that [configure] returns has a truthy port: the
    port of the overrides when that is truthy, else the port of the file
    when that is truthy, else 443 when the file names both a certificate
    and a key, and 80 otherwise. *)
Theorem X13_configure_settles_the_port (file options : JsVal) (app app' : App)
  (cfg : JsVal) :
  configure file options app = (Returned cfg, app') ->
  exists o text fields0 oport cf,
    get_prop options "overrides" = Ok o /\
    get_prop (if truthy o then o else JObj []) "port" = Ok oport /\
    fs app file = Ok text /\ JSON_parse text = Ok (JObj fields0) /\
    cfg = JObj cf /\
    field cf "port" = settled_port oport fields0 /\
    truthy (field cf "port") = true.
Proof.
  intros H.
  destruct (configure_returned _ _ _ _ _ H)
    as [o [f1 [f2 [f3 [Ho [E1 [E2 [E3 [_ [_ E4]]]]]]]]]].
  destruct (parse_config_ok _ _ _ _ E1) as [text [f0 [oport [Et [Ej [Eo [Hp _]]]]]]].
  destruct (load_file_ok _ _ _ _ E2) as [f1' [Ef1 [H2 _]]]. inversion Ef1; subst f1'.
  destruct (load_file_ok _ _ _ _ E3) as [f2' [Ef2 [H3 _]]]. inversion Ef2; subst f2'.
  destruct (finish_config_ok _ _ _ _ _ E4) as [cf [-> [_ [_ [H4 _]]]]].
  assert (P : field cf "port" = settled_port oport f0).
  { rewrite H4 by (simpl; intuition discriminate).
    rewrite H3, H2 by discriminate. exact Hp. }
  exists o, text, f0, oport, cf. repeat split; auto.
  rewrite P. apply truthy_settled_port.
Qed.

(** X14.  A configuration that [configure] returns comes from a file with
    truthy [postgres] and [marker] sections and still has them; its
    [version] is the memoized [VERSION] and its [name] is [Moray ] followed
    by that version; and where the file names a certificate or a key, the
    configuration holds the text of that file in place of the path.
    Returning, [configure] has written nothing to the console. *)
Theorem X14_returned_configuration (file options : JsVal) (app app' : App)
  (cfg : JsVal) :
  configure file options app = (Returned cfg, app') ->
  exists text fields0 cf,
    fs app file = Ok text /\ JSON_parse text = Ok (JObj fields0) /\ cfg = JObj cf /\
    truthy (field fields0 "postgres") = true /\ truthy (field fields0 "marker") = true /\
    truthy (field cf "postgres") = true /\ truthy (field cf "marker") = true /\
    field cf "version" = VERSION app' /\
    field cf "name" = JStr ("Moray " ++ js_String (VERSION app')) /\
    (forall k, k = "certificate" \/ k = "key" ->
               if truthy (field fields0 k)
               then exists t, fs app (field fields0 k) = Ok t /\ field cf k = JStr t
               else field cf k = field fields0 k) /\
    console app' = console app.
Proof.
  intros H.
  destruct (configure_returned _ _ _ _ _ H)
    as [o [f1 [f2 [f3 [Ho [E1 [E2 [E3 [Tp [Tm E4]]]]]]]]]].
  destruct (parse_config_ok _ _ _ _ E1) as [text [f0 [oport [Et [Ej [Eo [_ H1]]]]]]].
  destruct (load_file_ok _ _ _ _ E2) as [f1' [Ef1 [H2 L2]]]. inversion Ef1; subst f1'.
  destruct (load_file_ok _ _ _ _ E3) as [f2' [Ef2 [H3 L3]]]. inversion Ef2; subst f2'.
  destruct (finish_config_ok _ _ _ _ _ E4)
    as [cf [-> [Hv [Hn [H4 [Hpg [Hmk [_ Hco]]]]]]]].
  exists text, f0, cf.
  split; [exact Et|]. split; [exact Ej|]. split; [reflexivity|].
  assert (Pg : field f3 "postgres" = field f0 "postgres")
    by (rewrite H3, H2, H1 by discriminate; reflexivity).
  assert (Mk : field f3 "marker" = field f0 "marker")
    by (rewrite H3, H2, H1 by discriminate; reflexivity).
  split; [now rewrite <- Pg|]. split; [now rewrite <- Mk|].
  split; [auto|]. split; [auto|]. split; [exact Hv|]. split; [exact Hn|].
  split; [|exact Hco].
  intros k [->| ->].
  - rewrite H4 by (simpl; intuition discriminate).
    rewrite H3 by discriminate.
    rewrite <- (H1 "certificate") by discriminate.
    destruct (truthy (field f1 "certificate")); [exact L2|now subst].
  - rewrite H4 by (simpl; intuition discriminate).
    rewrite <- (H1 "key"), <- (H2 "key") by discriminate.
    destruct (truthy (field f2 "key")); [exact L3|now subst].
Qed.

(** X15.  [configure] writes to the console exactly when it leaves the
    process: an exit has code 1, follows one line of diagnostic in one of
    the four formats of the function, and happens before [version()] is
    ever called; a call that returns or throws writes nothing. *)
Theorem X15_configure_exits (file options : JsVal) (app app' : App)
  (out : Outcome JsVal) :
  configure file options app = (out, app') ->
  fs app' = fs app /\
  match out with
  | Exited code =>
      code = 1%Z /\ VERSION app' = VERSION app /\
      exists fmt args,
        console app' = (console app ++ [(fmt, args)])%list /\
        In fmt configure_diagnostics
  | _ => console app' = console app
  end.
Proof.
  unfold configure, exit1, configure_diagnostics. intros H.
  assert (Exit : forall fmt args,
             In fmt ["Unable to parse %s: %s"; "Unable to load %s: %s";
                     "Missing Postgres configuration from %s";
                     "Missing AES configuration for markers in %s"] ->
             1%Z = 1%Z /\ VERSION app = VERSION app /\
             exists fmt0 args0,
               (console app ++ [(fmt, args)])%list
               = (console app ++ [(fmt0, args0)])%list /\
               In fmt0 ["Unable to parse %s: %s"; "Unable to load %s: %s";
                        "Missing Postgres configuration from %s";
                        "Missing AES configuration for markers in %s"]).
  { intros fmt args Hin. split; [reflexivity|]. split; [reflexivity|].
    exists fmt, args. auto. }
  destruct (bind (assertString "file" file) _) as [o|e].
  2:{ inversion H; subst. auto. }
  destruct (parse_config file _ app) as [c1|e].
  2:{ inversion H; subst. split; [reflexivity|]. apply Exit. simpl. auto. }
  destruct (load_file "certificate" c1 app) as [c2|e].
  2:{ destruct (get_prop c1 "certificate"); inversion H; subst;
      (split; [reflexivity|]); [apply Exit; simpl; auto|reflexivity]. }
  destruct (load_file "key" c2 app) as [c3|e].
  2:{ destruct (get_prop c2 "certificate"); inversion H; subst;
      (split; [reflexivity|]); [apply Exit; simpl; auto|reflexivity]. }
  destruct (get_prop c3 "postgres") as [pg|e].
  2:{ inversion H; subst. auto. }
  destruct (negb (truthy pg)).
  { inversion H; subst. split; [reflexivity|]. apply Exit. simpl. auto. }
  destruct (get_prop c3 "marker") as [mk|e].
  2:{ inversion H; subst. auto. }
  destruct (negb (truthy mk)).
  { inversion H; subst. split; [reflexivity|]. apply Exit. simpl. auto. }
  destruct (finish_config options c3 app) as [[c4|e] app4] eqn:E4;
    destruct (finish_config_frame _ _ _ _ _ E4) as [F C];
    inversion H; subst; auto.
Qed.

End AppFacts.

(** ** The further properties at work on the concrete instances *)

Lemma Demo_checkEtag_keeps_request (r1 r2 : Req Demo.World) (w1 w2 : Demo.World) :
  Demo.checkEtag r1 w1 = (Ok r2, w2) -> r2 = r1.
Proof.
  unfold Demo.checkEtag. intros H.
  destruct (etag r1); [|now inversion H].
  destruct (previous r1); try (now inversion H).
  destruct (obj_get l "_etag") as [[| | | |e| |]|]; try (now inversion H).
  destruct (String.eqb e s); now inversion H.
Qed.

Lemma X5_insert_statement_is_aligned_witness :
  insert_statement (ext := Demo.externals) Demo.req_new
    [("email", "a@b.com"); ("age", "30")] Demo.w0
  = ("INSERT INTO users (_key, _value, _etag, _mtime, email, age) VALUES ($1, $2, $3, $4, $5, $6) RETURNING _id",
     [PStr "u2"; PStr (_value Demo.req_new);
      PStr (_createEtag (ext := Demo.externals) Demo.req_new); PNum 1500;
      PStr "a@b.com"; PStr "30"]).
Proof.
  apply (proj1 (@X5_insert_statement_is_aligned Demo.World Demo.externals
                  Demo.req_new [("email", "a@b.com"); ("age", "30")] Demo.w0
                  ltac:(repeat constructor; simpl; intuition discriminate))).
Defined.

Lemma X6_update_placeholders_are_aligned_witness :
  exists segs extra,
    update_statement (ext := Demo.externals) Demo.req_old Demo.users_schema Demo.w0 =
    Ok ("UPDATE users SET _value=$1, _etag=$2" ++ join segs
          ++ ", _mtime=" ++ "1500" ++ " WHERE _key='" ++ "u1" ++ "'",
        PStr (_value Demo.req_old)
          :: PStr (_createEtag (ext := Demo.externals) Demo.req_old) :: extra) /\
    List.length extra = 1 /\
    Forall2 (aligned Demo.users_schema [("email", ""); ("age", "30")]
               (PStr (_value Demo.req_old)
                  :: PStr (_createEtag (ext := Demo.externals) Demo.req_old) :: extra))
            (obj_keys Demo.users_schema) segs.
Proof.
  apply (@X6_update_placeholders_are_aligned Demo.World Demo.externals
           Demo.req_old Demo.users_schema [("email", ""); ("age", "30")] Demo.w0);
    reflexivity.
Defined.

Lemma X7_undeclared_type_leaves_a_placeholder_unbound_witness :
  exists segs extra,
    update_statement (ext := Demo.externals)
      (set_index Demo.req_old (Some [("when", "2012"); ("tag", "a")]))
      [("when", {| type := "date" |}); ("tag", {| type := "string" |})] Demo.w0 =
    Ok ("UPDATE users SET _value=$1, _etag=$2" ++ join segs
          ++ ", _mtime=" ++ "1500" ++ " WHERE _key='" ++ "u1" ++ "'",
        PStr (_value Demo.req_old)
          :: PStr (_createEtag (ext := Demo.externals) Demo.req_old) :: extra) /\
    Forall2 (assignment_of [("when", "2012"); ("tag", "a")]) ["when"; "tag"] segs /\
    List.length extra < 2.
Proof.
  apply (@X7_undeclared_type_leaves_a_placeholder_unbound Demo.World Demo.externals
           (set_index Demo.req_old (Some [("when", "2012"); ("tag", "a")]))
           [("when", {| type := "date" |}); ("tag", {| type := "string" |})]
           [("when", "2012"); ("tag", "a")] Demo.w0 "when");
    [reflexivity | simpl; auto | reflexivity | reflexivity].
Defined.

Lemma X8_typed_scalar_round_trip_witness :
  truthy (index_get [("admin", "false"); ("age", "0")] "age") = true /\
  update_fields Demo.users_schema (Some [("admin", "false"); ("age", "0")]) ["age"]
                ("", [PStr "v"; PStr "e"])
  = Ok (("" ++ ", " ++ "age" ++ "=") ++ "$" ++ nat_toString (2 + 1),
        [PStr "v"; PStr "e"; PNum 0]).
Proof.
  apply (X8_typed_scalar_round_trip Demo.users_schema
           [("admin", "false"); ("age", "0")] "age" {| type := "number" |}
           (JNum 0) "0" "" [PStr "v"; PStr "e"]);
    reflexivity.
Defined.

Lemma X9_insert_stores_the_generated_id_witness :
  exists req',
    insert (ext := Demo.externals) Demo.req_new Demo.st0
    = (Ok req',
       {| world := Demo.w0;
          queries := [{| q_origin := ByInsert;
                         q_sql := fst (insert_statement (ext := Demo.externals)
                                         Demo.req_new
                                         [("email", "a@b.com"); ("age", "30");
                                          ("admin", "true")] Demo.w0);
                         q_values := snd (insert_statement (ext := Demo.externals)
                                            Demo.req_new
                                            [("email", "a@b.com"); ("age", "30");
                                             ("admin", "true")] Demo.w0) |}] |}) /\
    get_prop (value req') "_id" = Ok (JNum 7) /\
    (forall k, k <> "_id" -> get_prop (value req') k = get_prop (value Demo.req_new) k) /\
    key req' = key Demo.req_new /\ _value req' = _value Demo.req_new /\
    index req' = index Demo.req_new.
Proof.
  apply (proj1 (@X9_insert_stores_the_generated_id Demo.World Demo.externals
                  Demo.req_new Demo.st0
                  [("email", "a@b.com"); ("age", "30"); ("admin", "true")]
                  [("email", JStr "a@b.com"); ("age", JNum 30); ("admin", JBool true)]
                  _ _ eq_refl eq_refl eq_refl eq_refl)
           (JObj [("_id", JNum 7)]) [] (JNum 7) Demo.w0);
    reflexivity.
Defined.

Lemma X10_now_is_the_nearest_millisecond_witness :
  (_now (ext := Demo.externals) Demo.w0
   <= _now (ext := Demo.externals) {| Demo.clock := 1500500; Demo.stored := [] |})%Z.
Proof.
  apply (proj2 (@X10_now_is_the_nearest_millisecond Demo.World Demo.externals Demo.w0
                  {| Demo.clock := 1500500; Demo.stored := [] |})).
  simpl. lia.
Defined.

Lemma X11_hooks_decide_what_is_written_witness :
  pre (bucket (set_bucket Demo.req_new
                 {| name := "notes";
                    bucket_index := Some [("tag", {| type := "string" |})];
                    pre := Some [Demo.hook_stamp]; post := Some [] |}))
  = Some [Demo.hook_stamp] /\
  forall q,
    In q (queries (snd (vasync_pipeline
                          [runPreChain (ext := Demo.externals); common checkEtag;
                           indexObject; insert; update]
                          (set_bucket Demo.req_new
                             {| name := "notes";
                                bucket_index := Some [("tag", {| type := "string" |})];
                                pre := Some [Demo.hook_stamp]; post := Some [] |})
                          Demo.st0))) ->
    In q (queries Demo.st0) \/
    (In (PStr (Demo.stringify
                 (JObj [("email", JStr "a@b.com"); ("age", JNum 30);
                        ("admin", JBool true); ("stamped", JBool true)])))
        (q_values q) /\
     In (PStr (Demo.hex32 (Demo.crc32 (Demo.stringify
                 (JObj [("email", JStr "a@b.com"); ("age", JNum 30);
                        ("admin", JBool true); ("stamped", JBool true)])))))
        (q_values q)).
Proof.
  split; [reflexivity|].
  apply (proj1 (@X11_hooks_decide_what_is_written Demo.World Demo.externals
           (set_bucket Demo.req_new
              {| name := "notes";
                 bucket_index := Some [("tag", {| type := "string" |})];
                 pre := Some [Demo.hook_stamp]; post := Some [] |})
           Demo.st0 [Demo.hook_stamp] [st_ok]
           {| cookie_bucket := "notes"; cookie_key := "u2";
              cookie_schema := Some [("tag", {| type := "string" |})];
              cookie_value := JObj [("email", JStr "a@b.com"); ("age", JNum 30);
                                    ("admin", JBool true); ("stamped", JBool true)];
              cookie_headers := JObj [] |}
           Demo.w0
           (fst (fst (vasync_pipeline
                        [runPreChain (ext := Demo.externals); common checkEtag;
                         indexObject; insert; update]
                        (set_bucket Demo.req_new
                           {| name := "notes";
                              bucket_index := Some [("tag", {| type := "string" |})];
                              pre := Some [Demo.hook_stamp]; post := Some [] |})
                        Demo.st0)))
           (snd (fst (vasync_pipeline
                        [runPreChain (ext := Demo.externals); common checkEtag;
                         indexObject; insert; update]
                        (set_bucket Demo.req_new
                           {| name := "notes";
                              bucket_index := Some [("tag", {| type := "string" |})];
                              pre := Some [Demo.hook_stamp]; post := Some [] |})
                        Demo.st0)))
           (snd (vasync_pipeline
                   [runPreChain (ext := Demo.externals); common checkEtag;
                    indexObject; insert; update]
                   (set_bucket Demo.req_new
                      {| name := "notes";
                         bucket_index := Some [("tag", {| type := "string" |})];
                         pre := Some [Demo.hook_stamp]; post := Some [] |})
                   Demo.st0))
           eq_refl ltac:(discriminate) eq_refl Demo_checkEtag_keeps_request
           ltac:(vm_compute; reflexivity))).
Defined.

Lemma X12_version_is_read_once_witness :
  version (aext := DemoApp.externals)
    {| VERSION := JStr "0.1.0"; fs := fun _ => Err (ExternalError "ENOENT");
       console := [] |}
  = (Ok (JStr "0.1.0"),
     {| VERSION := JStr "0.1.0"; fs := fun _ => Err (ExternalError "ENOENT");
        console := [] |}).
Proof.
  apply (proj2 (@X12_version_is_read_once DemoApp.externals DemoApp.app0
                  {| VERSION := JStr "0.1.0"; fs := DemoApp.read; console := [] |}
                  (JStr "0.1.0") eq_refl eq_refl)
           (fun _ => Err (ExternalError "ENOENT")) []).
Defined.

Lemma X13_configure_settles_the_port_witness :
  exists o text fields0 oport cf,
    get_prop DemoApp.options0 "overrides" = Ok o /\
    get_prop (if truthy o then o else JObj []) "port" = Ok oport /\
    fs DemoApp.app0 (JStr "/etc/moray.json") = Ok text /\
    JSON_parse (AppExternals := DemoApp.externals) text = Ok (JObj fields0) /\
    fst (configure (aext := DemoApp.externals) (JStr "/etc/moray.json")
                   DemoApp.options0 DemoApp.app0) = Returned (JObj cf) /\
    field cf "port" = settled_port oport fields0 /\
    truthy (field cf "port") = true.
Proof.
  destruct (@X13_configure_settles_the_port DemoApp.externals
              (JStr "/etc/moray.json") DemoApp.options0 DemoApp.app0
              (snd (configure (aext := DemoApp.externals) (JStr "/etc/moray.json")
                              DemoApp.options0 DemoApp.app0))
              match fst (configure (aext := DemoApp.externals) (JStr "/etc/moray.json")
                                   DemoApp.options0 DemoApp.app0) with
              | Returned c => c
              | _ => JNull
              end
              ltac:(vm_compute; reflexivity))
    as [o [text [f0 [oport [cf [H1 [H2 [H3 [H4 [H5 [H6 H7]]]]]]]]]]].
  exists o, text, f0, oport, cf. repeat split; auto.
  rewrite <- H5. vm_compute. reflexivity.
Defined.

Lemma X14_returned_configuration_witness :
  exists text fields0 cf,
    fs DemoApp.app0 (JStr "/etc/moray.json") = Ok text /\
    JSON_parse (AppExternals := DemoApp.externals) text = Ok (JObj fields0) /\
    fst (configure (aext := DemoApp.externals) (JStr "/etc/moray.json")
                   DemoApp.options0 DemoApp.app0) = Returned (JObj cf) /\
    field cf "version" = JStr "0.1.0" /\
    field cf "name" = JStr "Moray 0.1.0" /\
    field cf "certificate" = JStr "CERTIFICATE" /\
    field cf "key" = JStr "PRIVATE KEY".
Proof.
  destruct (@X14_returned_configuration DemoApp.externals
              (JStr "/etc/moray.json") DemoApp.options0 DemoApp.app0
              (snd (configure (aext := DemoApp.externals) (JStr "/etc/moray.json")
                              DemoApp.options0 DemoApp.app0))
              match fst (configure (aext := DemoApp.externals) (JStr "/etc/moray.json")
                                   DemoApp.options0 DemoApp.app0) with
              | Returned c => c
              | _ => JNull
              end
              ltac:(vm_compute; reflexivity))
    as [text [f0 [cf [H1 [H2 [H3 [_ [_ [_ [_ [H4 [H5 [H6 _]]]]]]]]]]]]].
  exists text, f0, cf.
  assert (E : fst (configure (aext := DemoApp.externals) (JStr "/etc/moray.json")
                             DemoApp.options0 DemoApp.app0) = Returned (JObj cf))
    by (rewrite <- H3; vm_compute; reflexivity).
  split; [exact H1|]. split; [exact H2|]. split; [exact E|].
  vm_compute in E. inversion E. subst cf. repeat split; reflexivity.
Defined.

Lemma X15_configure_exits_witness :
  exists fmt args,
    console (snd (configure (aext := DemoApp.externals) (JStr "/etc/broken.json")
                            DemoApp.options0 DemoApp.app0))
    = (console DemoApp.app0 ++ [(fmt, args)])%list /\
    In fmt configure_diagnostics.
Proof.
  apply (proj2 (proj2 (proj2 (@X15_configure_exits DemoApp.externals
           (JStr "/etc/broken.json") DemoApp.options0 DemoApp.app0
           (snd (configure (aext := DemoApp.externals) (JStr "/etc/broken.json")
                           DemoApp.options0 DemoApp.app0))
           (Exited 1)
           ltac:(vm_compute; reflexivity))))).
Defined.

(** ** Runs of [configure] on the concrete instance *)

(** A file without a port and with a certificate and a key: port 443, and
    the texts of the two files in place of their paths. *)
Example run_configure :
  fst (configure (aext := DemoApp.externals) (JStr "/etc/moray.json")
                 DemoApp.options0 DemoApp.app0)
  = Returned
      (JObj [("certificate", JStr "CERTIFICATE"); ("key", JStr "PRIVATE KEY");
             ("postgres", JObj [("url", JStr "pg://localhost/moray");
                                ("log", JObj [("level", JStr "function")])]);
             ("marker", JObj [("iv", JStr "ab"); ("key", JStr "zz")]);
             ("port", JNum 443); ("dtrace", JNull);
             ("log", JObj [("level", JStr "function")]);
             ("name", JStr "Moray 0.1.0"); ("version", JStr "0.1.0")]).
Proof. vm_compute. reflexivity. Qed.

(** A key file that cannot be read: the diagnostic is given
    [config.certificate], by then the text of the certificate file. *)
Example run_configure_unreadable_key :
  let '(out, app) := configure (aext := DemoApp.externals) (JStr "/etc/broken.json")
                               DemoApp.options0 DemoApp.app0 in
  out = Exited 1 /\
  console app = [("Unable to load %s: %s",
                  [CVal (JStr "CERTIFICATE"); CMessage (ExternalError "ENOENT")])].
Proof. vm_compute. split; reflexivity. Qed.
